(** * TechSoC-25: the scientific calculator and the Caesar cipher tools

    A shallow embedding of
    - [Problem_Statement_0/CALCULATOR.cpp]: [power], [abso], [fact],
      [hasDecimal], [lnNear1], [ln], [mySqrt];
    - [Problem_Statement_1/Ceaser_Cipher.cpp]: the character loop of [main];
    - [Problem_Statement_1/Level2.cpp]: the brute-force search of [main].

    The calculator is written once, over an interface [Double] of the
    arithmetic of the C++ type [double], and run on two instances:
    exact rational arithmetic with a guarded division ([QDouble]), and IEEE 754
    binary64 with round-to-nearest ([F64], the kernel's primitive floats).

    A loop whose number of rounds is not known on entry takes a bound [fuel]
    on that number and stops on [OutOfFuel] when the bound is reached; the
    counters of type [int] and the accumulator of type [long] wrap around. *)

From Stdlib Require Import ZArith QArith Qabs Qround Qpower Lia Lqa.
From Stdlib Require Import List String Ascii Bool.
From Stdlib Require Import Floats.
Import ListNotations.

Local Open Scope Z_scope.

(** ** Machine integers *)

(** Two's complement wrap-around of a [w]-bit signed integer. *)
Definition wrap (w : Z) (z : Z) : Z := (z + 2 ^ (w - 1)) mod 2 ^ w - 2 ^ (w - 1).

(** [int] is 32 bits wide and [long] 64 bits wide. *)
Definition int_ (z : Z) : Z := wrap 32 z.
Definition long_ (z : Z) : Z := wrap 64 z.

Definition INT_MIN : Z := - 2 ^ 31.
Definition INT_MAX : Z := 2 ^ 31 - 1.
Definition in_int (z : Z) : bool := (INT_MIN <=? z) && (z <=? INT_MAX).

(** ** Runs: console output and faults *)

Inductive fault : Type :=
| DivisionByZero      (* a quotient whose divisor is zero, in guarded arithmetic *)
| CastOutOfRange      (* (int)x for an x whose truncation is no int *)
| OutOfFuel.          (* the loop was cut before its condition became false *)

(** A run either returns a value together with the text it wrote to [cout],
    or stops on a fault. *)
Inductive run (A : Type) : Type :=
| Ok (a : A) (out : string)
| Fault (f : fault).
Arguments Ok {A} a out.
Arguments Fault {A} f.

Definition ret {A} (a : A) : run A := Ok a "".

Definition bind {A B} (m : run A) (k : A -> run B) : run B :=
  match m with
  | Ok a o =>
      match k a with
      | Ok b o' => Ok b (o ++ o')
      | Fault f => Fault f
      end
  | Fault f => Fault f
  end.

Definition cout (s : string) : run unit := Ok tt s.

Definition endl : string := String (ascii_of_nat 10) EmptyString.

Definition guard {A} (f : fault) (o : option A) : run A :=
  match o with
  | Some a => ret a
  | None => Fault f
  end.

Declare Scope run_scope.
Delimit Scope run_scope with run.
Notation "x <- m ;; k" := (bind m (fun x => k))
  (at level 61, m at next level, right associativity) : run_scope.
Notation "' pat <- m ;; k" := (bind m (fun x => match x with pat => k end))
  (at level 61, pat pattern, m at next level, right associativity) : run_scope.
Notation "m ;; k" := (bind m (fun _ => k))
  (at level 61, right associativity) : run_scope.

(** ** Loops *)

Section Loops.
Context {S : Type}.

(** [for (int i = lo; test i; i++) s = body i s;] for a body that cannot
    fault and leaves [i] alone: the number of rounds is known on entry. *)
Fixpoint for_upto (n : nat) (test : Z -> bool) (i : Z) (body : Z -> S -> S)
  (s : S) : S :=
  match n with
  | O => s
  | Datatypes.S n' =>
      if test i then for_upto n' test (int_ (i + 1)) body (body i s) else s
  end.

(** [for (int i = lo; i < hi; i++)] and [for (int i = lo; i <= hi; i++)] *)
Definition for_lt (lo hi : Z) (body : Z -> S -> S) (s : S) : S :=
  for_upto (Z.to_nat (hi - lo)) (fun i => i <? hi) lo body s.

Definition for_le (lo hi : Z) (body : Z -> S -> S) (s : S) : S :=
  for_upto (Z.to_nat (hi + 1 - lo)) (fun i => i <=? hi) lo body s.

(** The same loop for a body that may fault. *)
Fixpoint forM_upto (n : nat) (test : Z -> bool) (i : Z)
  (body : Z -> S -> run S) (s : S) : run S :=
  match n with
  | O => ret s
  | Datatypes.S n' =>
      if test i
      then (s' <- body i s ;; forM_upto n' test (int_ (i + 1)) body s')%run
      else ret s
  end.

Definition forM_lt (lo hi : Z) (body : Z -> S -> run S) (s : S) : run S :=
  forM_upto (Z.to_nat (hi - lo)) (fun i => i <? hi) lo body s.

(** [while (cond s) s = body s;]: at most [fuel] rounds of the body. *)
Fixpoint while (fuel : nat) (cond : S -> bool) (body : S -> run S) (s : S)
  : run S :=
  if cond s then
    match fuel with
    | O => Fault OutOfFuel
    | Datatypes.S fuel' => (s' <- body s ;; while fuel' cond body s')%run
    end
  else ret s.

(** [do s = body s; while (cond s);] *)
Definition do_while (fuel : nat) (body : S -> run S) (cond : S -> bool) (s : S)
  : run S :=
  (s' <- body s ;; while fuel cond body s')%run.
End Loops.

(** ** The arithmetic of [double] *)

Class Double (D : Type) : Type := {
  (** the decimal literal [m * 10^-k] *)
  lit : Z -> nat -> D;
  (** the conversion of an [int] to [double] *)
  of_int : Z -> D;
  (** [(int)x]: truncation toward zero, undefined when the result is no [int] *)
  to_int : D -> option Z;
  add : D -> D -> D;
  sub : D -> D -> D;
  mul : D -> D -> D;
  neg : D -> D;
  (** [x / y]; [None] where the arithmetic has no quotient *)
  div : D -> D -> option D;
  (** [x < y] and [x == y] *)
  ltb : D -> D -> bool;
  eqb : D -> D -> bool
}.

(** ** Problem_Statement_0/CALCULATOR.cpp *)

Module CALCULATOR.
Section Generic.
Context {D : Type} `{Double D}.
Local Open Scope run_scope.

Definition e : D := lit 2718281828 9.
Definition PI : D := lit 31415926535 10.

(** [double power(double num, int p)] *)
Definition power (num : D) (p : Z) : D :=
  for_lt 0 p (fun _ res => mul res num) (of_int 1).

(** [double abso(double x)] *)
Definition abso (x : D) : D := if ltb x (of_int 0) then neg x else x.

(** [long fact(int x)] *)
Definition fact (fuel : nat) (x : Z) : run Z :=
  '(_, pro) <- while fuel
                 (fun '(x, pro) => 1 <? x)
                 (fun '(x, pro) => ret (int_ (x - 1), long_ (pro * x)))
                 (x, 1) ;;
  ret pro.

(** [bool hasDecimal(double num)] *)
Definition hasDecimal (num : D) : run bool :=
  n <- guard CastOutOfRange (to_int num) ;;
  ret (ltb (lit 1 9) (abso (sub num (of_int n)))).

(** The [do ... while] loop of [lnNear1], on the state [(result, cnt, y)]:
    its body, for [z = cnum - 1], and its condition. *)
Definition lnNear1_body (z : D) (s : D * Z * D) : run (D * Z * D) :=
  let '(result, cnt, _) := s in
  let sign := if Z.rem cnt 2 =? 0 then of_int (-1) else of_int 1 in
  y <- guard DivisionByZero (div (mul sign (power z cnt)) (of_int cnt)) ;;
  ret (add result y, int_ (cnt + 1), y).

Definition lnNear1_cond (s : D * Z * D) : bool :=
  let '(_, _, y) := s in ltb (lit 1 10) (abso y).

(** [double lnNear1(double cnum)]; [y] is not initialised in the source and
    not read before the first round assigns it. *)
Definition lnNear1 (fuel : nat) (cnum : D) : run D :=
  let z := sub cnum (of_int 1) in
  '(result, _, _) <-
    do_while fuel (lnNear1_body z) lnNear1_cond (of_int 0, 1, of_int 0) ;;
  ret result.

(** The two reduction loops of [ln]; the loop state is [(num, k)]. *)
Definition ln_down (fuel : nat) (num : D) (k : Z) : run (D * Z) :=
  while fuel
    (fun '(num, _) => ltb (lit 15 1) num)
    (fun '(num, k) =>
       q <- guard DivisionByZero (div num e) ;; ret (q, int_ (k + 1)))
    (num, k).

Definition ln_up (fuel : nat) (num : D) (k : Z) : run (D * Z) :=
  while fuel
    (fun '(num, _) => ltb num (lit 5 1))
    (fun '(num, k) => ret (mul num e, int_ (k - 1)))
    (num, k).

(** [double ln(double num)] *)
Definition ln (fuel : nat) (num : D) : run D :=
  if eqb num (of_int 0) then cout "NOT DEFINED" ;; ret (of_int 0)
  else if ltb num (of_int 0) then cout "Invalid Input" ;; ret (of_int 0)
  else
    '(num, k) <- ln_down fuel num 0 ;;
    '(num, k) <- ln_up fuel num k ;;
    t <- lnNear1 fuel num ;;
    ret (add (of_int k) t).

(** One round of the loop of [mySqrt]. *)
Definition newton (x guess : D) : run D :=
  q <- guard DivisionByZero (div x guess) ;;
  guard DivisionByZero (div (add guess q) (lit 20 1)).

(** [double mySqrt(double x)] *)
Definition mySqrt (x : D) : run D :=
  if ltb x (of_int 0) then
    cout ("Error: Square root of negative number!" ++ endl) ;; ret (of_int 0)
  else
    guess <- guard DivisionByZero (div x (lit 20 1)) ;;
    forM_lt 0 100 (fun _ guess => newton x guess) guess.

(** [x <= y], which on rationals and on binary64 alike is [x < y || x == y]. *)
Definition leb (x y : D) : bool := ltb x y || eqb x y.

(** The condition [abso(term) > eps] of the series loops, on the state
    [(term, sum, n)]. *)
Definition series_cond (eps : D) (s : D * D * Z) : bool :=
  let '(term, _, _) := s in ltb eps (abso term).

(** The body of the loop of [exp_]: [term *= x / cnt; sum += term; cnt++;] *)
Definition exp_body (x : D) (s : D * D * Z) : run (D * D * Z) :=
  let '(term, sum, cnt) := s in
  q <- guard DivisionByZero (div x (of_int cnt)) ;;
  let term := mul term q in
  ret (term, add sum term, int_ (cnt + 1)).

(** [double exp_(double x)] *)
Definition exp_ (fuel : nat) (x : D) : run D :=
  '(_, sum, _) <-
    do_while fuel (exp_body x) (series_cond (lit 1 12)) (of_int 1, of_int 1, 1) ;;
  ret sum.

(** [double log10_(double x)]: [ln(x) / ln(10)], the left operand first. *)
Definition log10_ (fuel : nat) (x : D) : run D :=
  a <- ln fuel x ;;
  b <- ln fuel (of_int 10) ;;
  guard DivisionByZero (div a b).

(** [double deciPow(double a, double b)] *)
Definition deciPow (fuel : nat) (a b : D) : run D :=
  if leb a (of_int 0) then
    cout ("Invalid input for power!" ++ endl) ;; ret (of_int 0)
  else
    l <- ln fuel a ;;
    exp_ fuel (mul b l).

(** [double normalize(double x)] *)
Definition normalize (fuel : nat) (x : D) : run D :=
  x <- while fuel (fun x => ltb (mul (of_int 2) PI) x)
         (fun x => ret (sub x (mul (of_int 2) PI))) x ;;
  while fuel (fun x => ltb x (mul (of_int (-2)) PI))
    (fun x => ret (add x (mul (of_int 2) PI))) x.

(** The body of the loop of [sin_]:
    [term *= -1 * x * x / ((2 * n) * (2 * n + 1)); sum += term; n++;]
    with the product of the denominator computed on [int]. *)
Definition sin_body (x : D) (s : D * D * Z) : run (D * D * Z) :=
  let '(term, sum, n) := s in
  let den := int_ (int_ (2 * n) * int_ (int_ (2 * n) + 1)) in
  q <- guard DivisionByZero (div (mul (mul (of_int (-1)) x) x) (of_int den)) ;;
  let term := mul term q in
  ret (term, add sum term, int_ (n + 1)).

(** [double sin_(double x)] *)
Definition sin_ (fuel : nat) (x : D) : run D :=
  x <- normalize fuel x ;;
  '(_, sum, _) <- while fuel (series_cond (lit 1 10)) (sin_body x) (x, x, 1) ;;
  ret sum.

(** The body of the loop of [cos_]:
    [term *= -1 * x * x / ((2 * n - 1) * (2 * n)); sum += term; n++;] *)
Definition cos_body (x : D) (s : D * D * Z) : run (D * D * Z) :=
  let '(term, sum, n) := s in
  let den := int_ (int_ (int_ (2 * n) - 1) * int_ (2 * n)) in
  q <- guard DivisionByZero (div (mul (mul (of_int (-1)) x) x) (of_int den)) ;;
  let term := mul term q in
  ret (term, add sum term, int_ (n + 1)).

(** [double cos_(double x)] *)
Definition cos_ (fuel : nat) (x : D) : run D :=
  x <- normalize fuel x ;;
  '(_, sum, _) <-
    while fuel (series_cond (lit 1 10)) (cos_body x) (of_int 1, of_int 1, 1) ;;
  ret sum.

(** [double tan_(double x)] *)
Definition tan_ (fuel : nat) (x : D) : run D :=
  x <- normalize fuel x ;;
  c <- cos_ fuel x ;;
  if ltb (abso c) (lit 1 12) then
    cout ("Error: Tan undefined at this angle!" ++ endl) ;; ret (of_int 0)
  else
    s <- sin_ fuel x ;;
    guard DivisionByZero (div s c).

(** The body of the loop of [arcsin]:
    [term *= (x*x) * (2*n-1)*(2*n-1) / ( (2*n)*(2*n+1) ); sum += term; n++;] *)
Definition arcsin_body (x : D) (s : D * D * Z) : run (D * D * Z) :=
  let '(term, sum, n) := s in
  let odd := int_ (int_ (2 * n) - 1) in
  let den := int_ (int_ (2 * n) * int_ (int_ (2 * n) + 1)) in
  q <- guard DivisionByZero
         (div (mul (mul (mul x x) (of_int odd)) (of_int odd)) (of_int den)) ;;
  let term := mul term q in
  ret (term, add sum term, int_ (n + 1)).

(** [double arcsin(double x)] *)
Definition arcsin (fuel : nat) (x : D) : run D :=
  if ltb x (of_int (-1)) || ltb (of_int 1) x then
    cout ("Invalid input for arcsin!" ++ endl) ;; ret (of_int 0)
  else
    '(_, sum, _) <- while fuel (series_cond (lit 1 12)) (arcsin_body x) (x, x, 1) ;;
    ret sum.

(** [double arccos(double x)] *)
Definition arccos (fuel : nat) (x : D) : run D :=
  if ltb x (of_int (-1)) || ltb (of_int 1) x then
    cout ("Invalid input for arccos!" ++ endl) ;; ret (of_int 0)
  else
    h <- guard DivisionByZero (div PI (of_int 2)) ;;
    a <- arcsin fuel x ;;
    ret (sub h a).

(** The body of the loop of [arctan]:
    [term *= -(x*x) * (2*n-1) / (2*n+1); sum += term; n++;] *)
Definition arctan_body (x : D) (s : D * D * Z) : run (D * D * Z) :=
  let '(term, sum, n) := s in
  let odd := int_ (int_ (2 * n) - 1) in
  let den := int_ (int_ (2 * n) + 1) in
  q <- guard DivisionByZero
         (div (mul (neg (mul x x)) (of_int odd)) (of_int den)) ;;
  let term := mul term q in
  ret (term, add sum term, int_ (n + 1)).

(** [double arctan(double x)]; [depth] bounds the nesting of its calls. *)
Fixpoint arctan (depth fuel : nat) (x : D) : run D :=
  match depth with
  | O => Fault OutOfFuel
  | Datatypes.S depth' =>
      if ltb (of_int 1) x then
        h <- guard DivisionByZero (div PI (of_int 2)) ;;
        y <- guard DivisionByZero (div (of_int 1) x) ;;
        a <- arctan depth' fuel y ;;
        ret (sub h a)
      else if ltb x (of_int (-1)) then
        h <- guard DivisionByZero (div (neg PI) (of_int 2)) ;;
        y <- guard DivisionByZero (div (of_int 1) x) ;;
        a <- arctan depth' fuel y ;;
        ret (sub h a)
      else
        '(_, sum, _) <-
          while fuel (series_cond (lit 1 12)) (arctan_body x) (x, x, 1) ;;
        ret sum
  end.

(** Case 5 of the [switch] of [main]: the value it stores in [result] for
    the base [num1] and the exponent [num2]. *)
Definition main_power (fuel : nat) (num1 num2 : D) : run D :=
  b <- hasDecimal num2 ;;
  if b then deciPow fuel num1 num2
  else
    p <- guard CastOutOfRange (to_int num2) ;;
    ret (power num1 p).
End Generic.
End CALCULATOR.

(** ** Exact arithmetic: rationals, with division guarded against a zero divisor *)

(** Every finite [double] is a rational, and so are the constants of the
    program; here the operations are those of the rationals, without rounding,
    and a quotient by zero is refused.  This is not the arithmetic of the
    program: it says what the algorithms compute when nothing is rounded.
    What the program itself computes is stated on the binary64 instance
    below, or on every instance at once. *)

Definition Qltb (x y : Q) : bool := negb (Qle_bool y x).

(** Truncation toward zero. *)
Definition Qtrunc (x : Q) : Z := Z.quot (Qnum x) (Zpos (Qden x)).

#[export] Instance QDouble : Double Q := {
  lit m k := Qmake m (Z.to_pos (10 ^ Z.of_nat k));
  of_int z := inject_Z z;
  to_int x := if in_int (Qtrunc x) then Some (Qtrunc x) else None;
  add := Qplus;
  sub := Qminus;
  mul := Qmult;
  neg := Qopp;
  div x y := if Qeq_bool y 0 then None else Some (Qdiv x y);
  ltb := Qltb;
  eqb := Qeq_bool
}.

(** ** IEEE 754 binary64 *)

(** The operations are those of the kernel's primitive floats: binary64,
    round to nearest, ties to even.  A literal is the quotient of two
    integers; it is the double nearest to the decimal value as long as both
    integers are doubles themselves, which holds of every literal of the
    program. *)

(** The integer part of a finite float, by truncation toward zero. *)
Definition float_trunc (x : float) : option Z :=
  match Prim2SF x with
  | S754_zero _ => Some 0
  | S754_finite s m ex =>
      let a := if 0 <=? ex then Zpos m * 2 ^ ex else Zpos m / 2 ^ (- ex) in
      Some (if s then - a else a)
  | S754_infinity _ | S754_nan => None
  end.

Definition float_of_Z (z : Z) : float :=
  if z <? 0 then PrimFloat.opp (PrimFloat.of_uint63 (Uint63.of_Z (- z)))
  else PrimFloat.of_uint63 (Uint63.of_Z z).

#[export] Instance F64 : Double float := {
  lit m k := PrimFloat.div (float_of_Z m) (float_of_Z (10 ^ Z.of_nat k));
  of_int z := float_of_Z z;
  to_int x :=
    match float_trunc x with
    | Some n => if in_int n then Some n else None
    | None => None
    end;
  add := PrimFloat.add;
  sub := PrimFloat.sub;
  mul := PrimFloat.mul;
  neg := PrimFloat.opp;
  div x y := Some (PrimFloat.div x y);
  ltb := PrimFloat.ltb;
  eqb := PrimFloat.eqb
}.

(** ** Characters *)

(** The value of a [char] (signed, 8 bits) and the conversion back. *)
Definition code (ch : ascii) : Z :=
  let n := Z.of_nat (nat_of_ascii ch) in if n <? 128 then n else n - 256.

Definition chr (z : Z) : ascii := ascii_of_nat (Z.to_nat (z mod 256)).

Definition is_lower (ch : ascii) : bool :=
  (code "a" <=? code ch) && (code ch <=? code "z").

Definition is_upper (ch : ascii) : bool :=
  (code "A" <=? code ch) && (code ch <=? code "Z").

(** ** Problem_Statement_1/Ceaser_Cipher.cpp *)

Module Ceaser_Cipher.

(** The body of [for (char ch : ip)], before [op += ch]. *)
Definition shift_char (sv : Z) (ch : ascii) : ascii :=
  if is_lower ch then
    chr (code "a" + Z.rem (code ch - code "a" + sv + 26) 26)
  else if is_upper ch then
    chr (code "A" + Z.rem (code ch - code "A" + sv + 26) 26)
  else ch.

(** [for (char ch : ip) { ...; op += ch; }] *)
Fixpoint loop (sv : Z) (ip op : string) : string :=
  match ip with
  | EmptyString => op
  | String ch rest => loop sv rest (op ++ String (shift_char sv ch) EmptyString)
  end.

(** The text [op] that [main] builds from the shift [sv] and the line [ip]
    it reads. *)
Definition transform (sv : Z) (ip : string) : string :=
  let sv := Z.rem sv 26 in
  loop sv ip "".

(** [int main()]: what it writes to [cout]. *)
Definition main (sv : Z) (ip : string) : string :=
  "Enter shift value (+ve for Encode, -ve for Decode): "
  ++ "Enter the line to be coded: "
  ++ "OUTPUT: " ++ transform sv ip ++ endl.

End Ceaser_Cipher.

(** ** Problem_Statement_1/Level2.cpp *)

Module Level2.

(** [cin.getline(cipher, 200)] keeps at most 199 characters of the line, and
    the string in the buffer ends at the first NUL. *)
Fixpoint c_str (n : nat) (line : string) : string :=
  match n, line with
  | Datatypes.S n', String ch rest =>
      if (code ch =? 0)%Z then EmptyString else String ch (c_str n' rest)
  | _, _ => EmptyString
  end.

Definition getline (size : nat) (line : string) : string :=
  c_str (size - 1) line.

Definition is_vowel (newChar : ascii) : bool :=
  (code newChar =? code "a") || (code newChar =? code "e")
  || (code newChar =? code "i") || (code newChar =? code "o")
  || (code newChar =? code "u").

(** [char newChar = (ch - 'a' - shift + 26) % 26 + 'a';] *)
Definition decode_char (shift : Z) (ch : ascii) : ascii :=
  chr (Z.rem (code ch - code "a" - shift + 26) 26 + code "a").

(** The inner loop [for (int i = 0; i < len; i++)]: it fills [decoded] and
    counts the vowels among the letters it decodes. *)
Fixpoint decode (shift : Z) (cipher : string) (vowelCount : Z) : string * Z :=
  match cipher with
  | EmptyString => (EmptyString, vowelCount)
  | String ch rest =>
      if is_lower ch then
        let newChar := decode_char shift ch in
        let vowelCount :=
          if is_vowel newChar then int_ (vowelCount + 1) else vowelCount in
        let (decoded, vowelCount) := decode shift rest vowelCount in
        (String newChar decoded, vowelCount)
      else
        let (decoded, vowelCount) := decode shift rest vowelCount in
        (String ch decoded, vowelCount)
  end.

(** The state [(bestShift, bestScore, bestText)] of the search. *)
Definition best : Type := Z * Z * string.

(** One round of [for (int shift = 1; shift <= 25; shift++)]. *)
Definition try_shift (cipher : string) (shift : Z) (b : best) : best :=
  let '(bestShift, bestScore, bestText) := b in
  let (decoded, vowelCount) := decode shift cipher 0 in
  if bestScore <? vowelCount then (shift, vowelCount, decoded) else b.

(** The search; [bestText] is not initialised in the source, and the round
    of shift 1 assigns it, every score being above -1. *)
Definition search (cipher : string) : best :=
  for_le 1 25 (try_shift cipher) (0, -1, EmptyString).

(** [int main()]: the shift and the text it reports for the line it reads. *)
Definition main (line : string) : Z * string :=
  let cipher := getline 200 line in
  let '(bestShift, _, bestText) := search cipher in
  (bestShift, bestText).

End Level2.

(** * The vocabulary of the statements *)

Import CALCULATOR Ceaser_Cipher Level2.

Local Open Scope Q_scope.

(** What [mySqrt] writes on a negative argument. *)
Definition sqrt_message : string :=
  "Error: Square root of negative number!" ++ endl.

(** The [n]-th term and the [N]-th partial sum of the series of [ln] at 1. *)
Definition taylor_term (z : Q) (n : Z) : Q :=
  (- (1)) ^ (n + 1) * z ^ n / inject_Z n.

Fixpoint taylor_sum (z : Q) (N : nat) : Q :=
  match N with
  | O => 0
  | Datatypes.S N' => taylor_sum z N' + taylor_term z (Z.of_nat N)
  end.

(** The literals [1e-10] and [1e-9] and the constant [e] of the program, as
    rationals. *)
Definition eps10 : Q := lit 1 10.


Definition eQ : Q := e.

(** The positive finite values of [double] lie between [2^-1074] and
    [2^1024]. *)
Definition double_range (x : Q) : Prop := 2 ^ (-1074) <= x <= 2 ^ 1024.

(** Numbers of rounds that suffice for the two loops on [x]. *)
Definition rounds_suffice (x : Q) (n1 n2 : nat) : Prop :=
  x <= (3 # 2) * 2 ^ Z.of_nat n1 /\ 1 # 2 <= x * 2 ^ Z.of_nat n2.

(** What a run of [ln] on [x] does: [j1] divisions and [j2] multiplications
    by [e] lead from [x] over [r1] to [r], and [N] terms of the series sum to
    [T]. *)
Definition ln_computes (x : Q) (fuel : nat) (j1 j2 N : nat) (r1 r T : Q) : Prop :=
  let k := int_ (Z.of_nat j1 - Z.of_nat j2) in
  ln_down fuel x 0 = Ok (r1, int_ (Z.of_nat j1)) ""
  /\ ln_up fuel r1 (int_ (Z.of_nat j1)) = Ok (r, k) ""
  /\ lnNear1 fuel r = Ok T ""
  /\ ln fuel x = Ok (inject_Z k + T) ""
  /\ (j1 = 0 \/ j2 = 0)%nat
  /\ (forall i, (i < j1)%nat -> 3 # 2 < x / eQ ^ Z.of_nat i)
  /\ (forall i, (i < j2)%nat -> x * eQ ^ Z.of_nat i < 1 # 2)
  /\ 1 # 2 <= r <= 3 # 2
  /\ x == r * eQ ^ (Z.of_nat j1 - Z.of_nat j2)
  /\ (1 <= N <= 29)%nat
  /\ T == taylor_sum (r - 1) N
  /\ Qabs (taylor_term (r - 1) (Z.of_nat N)) <= eps10
  /\ (forall n, (1 <= n < N)%nat ->
                eps10 < Qabs (taylor_term (r - 1) (Z.of_nat n))).

(** ** Series, parity and the remaining messages *)

(** [n!] *)
Fixpoint factZ (n : nat) : Z :=
  match n with
  | O => 1
  | Datatypes.S n' => Z.of_nat n * factZ n'
  end.



Definition eps12 : Q := lit 1 12.

(** What [deciPow] writes on a base that is not positive. *)
Definition power_message : string := "Invalid input for power!" ++ endl.

(** [2*PI], as [normalize] computes it. *)
Definition two_pi : Q := mul (of_int 2) PI.

(** [2*PI] in binary64. *)
Definition two_pi_f : float := mul (of_int 2) PI.

(** What [tan_] writes where the cosine is too small. *)
Definition tan_message : string := "Error: Tan undefined at this angle!" ++ endl.

(** What [arcsin] and [arccos] write outside [[-1, 1]]. *)
Definition arcsin_message : string := "Invalid input for arcsin!" ++ endl.
Definition arccos_message : string := "Invalid input for arccos!" ++ endl.

(** The ratios by which the loops of [arcsin] and [arctan] multiply [term] in
    the round [n = m]. *)
Definition arcsin_ratio (x : Q) (m : Z) : Q :=
  x * x * inject_Z (2 * m - 1) * inject_Z (2 * m - 1) / inject_Z (2 * m * (2 * m + 1)).

Definition arctan_ratio (x : Q) (m : Z) : Q :=
  - (x * x) * inject_Z (2 * m - 1) / inject_Z (2 * m + 1).




(** Two runs are related by [R] when they fail alike, or return values
    related by [R] after the same output. *)
Definition run_rel {A B : Type} (R : A -> B -> Prop) (m : run A) (m' : run B) : Prop :=
  match m, m' with
  | Ok a o, Ok b o' => R a b /\ o = o'
  | Fault f, Fault f' => f = f'
  | _, _ => False
  end.

Definition opposite : run Q -> run Q -> Prop := run_rel (fun a b => b == - a).
Definition alike : run Q -> run Q -> Prop := run_rel Qeq.

(** The states [(term, sum, n)] of two series loops, the terms and sums of
    the second being those of the first times [sg]. *)
Definition scaled_state (sg : Q) (s s' : Q * Q * Z) : Prop :=
  let '(t, u, n) := s in let '(t', u', n') := s' in
  t' == sg * t /\ u' == sg * u /\ n' = n.

(** The two loops of [normalize]. *)
Definition norm_down (fuel : nat) (x : Q) : run Q :=
  while fuel (fun x => ltb (mul (of_int 2) PI) x)
    (fun x => ret (sub x (mul (of_int 2) PI))) x.

Definition norm_up (fuel : nat) (x : Q) : run Q :=
  while fuel (fun x => ltb x (mul (of_int (-2)) PI))
    (fun x => ret (add x (mul (of_int 2) PI))) x.

Local Open Scope Z_scope.

(** The 256 characters. *)
Definition all_ascii : list ascii := map ascii_of_nat (seq 0 256).

(** The shifts that remain after [sv % 26]. *)
Definition small_shifts : list Z := map (fun n => Z.of_nat n - 25) (seq 0 51).

(** The string whose characters are the images by [f] of those of [s]. *)
Fixpoint string_map (f : ascii -> ascii) (s : string) : string :=
  match s with
  | EmptyString => EmptyString
  | String c rest => String (f c) (string_map f rest)
  end.

(** The pass keeps the case of a letter and leaves every other character. *)
Definition case_kept (c d : ascii) : Prop :=
  (is_lower c = true -> is_lower d = true)
  /\ (is_upper c = true -> is_upper d = true)
  /\ (is_lower c = false -> is_upper c = false -> d = c).

(** The checks that are run on every character and every small shift. *)
Definition case_keptb (t : Z) (c : ascii) : bool :=
  let d := shift_char t c in
  implb (is_lower c) (is_lower d) && implb (is_upper c) (is_upper d)
  && (is_lower c || is_upper c || Ascii.eqb d c).

Definition round_tripb (t : Z) (c : ascii) : bool :=
  Ascii.eqb (shift_char (- t) (shift_char t c)) c.

(** The text that the inner loop leaves in [decoded], and the number of
    lowercase vowels of a text. *)
Definition decoded (shift : Z) (cipher : string) : string :=
  fst (decode shift cipher 0).

Fixpoint vowels (s : string) : Z :=
  match s with
  | EmptyString => 0
  | String c rest => (if is_vowel c then 1 else 0) + vowels rest
  end.

Definition score (shift : Z) (cipher : string) : Z :=
  vowels (decoded shift cipher).

(** The length of a string, as an integer. *)
Definition Zlength (s : string) : Z := Z.of_nat (String.length s).

(** What holds of [(bestShift, bestScore, bestText)] once the shifts
    [1 .. m] have been tried. *)
Definition best_upto (cipher : string) (m : Z) (b : best) : Prop :=
  let '(bestShift, bestScore, bestText) := b in
  (m = 0 /\ bestScore = -1)
  \/ (1 <= bestShift <= m
      /\ bestScore = score bestShift cipher
      /\ bestText = decoded bestShift cipher
      /\ (forall t, 1 <= t <= m -> score t cipher <= bestScore)
      /\ (forall t, 1 <= t < bestShift -> score t cipher < bestScore)).

(** A phrase without capital letters and without NUL: no character is
    lost when it is encoded, read back into the buffer and decoded. *)
Definition lowercase (phrase : string) : Prop :=
  Forall (fun c => is_upper c = false /\ code c <> 0) (list_ascii_of_string phrase).

(** What the inner loop of the search stores for the character [ch]. *)
Definition undo_char (shift : Z) (ch : ascii) : ascii :=
  if is_lower ch then decode_char shift ch else ch.

Definition undo_shiftb (t : Z) (c : ascii) : bool :=
  implb (1 <=? t)
    (is_upper c || Ascii.eqb (undo_char t (shift_char (Z.rem t 26) c)) c).

Definition keeps_nulb (t : Z) (c : ascii) : bool :=
  (code c =? 0) || negb (code (shift_char t c) =? 0).

(** The letters, the only characters the cipher changes. *)
Definition is_letter (c : ascii) : bool := is_lower c || is_upper c.

Definition letters : list ascii := filter is_letter all_ascii.

(** The rotation by [k] places, as [k mod 26] rotations by one place. *)
Definition rotate (k : Z) (c : ascii) : ascii :=
  Nat.iter (Z.to_nat (k mod 26)) (shift_char 1) c.

(** [shift_char t] is the rotation by [t]. *)
Definition rotate_checkb (t : Z) (c : ascii) : bool :=
  Ascii.eqb (shift_char t c) (rotate t c).

(** Buffers without capital letters, and without small letters. *)
Definition no_capital (s : string) : Prop :=
  Forall (fun c => is_upper c = false) (list_ascii_of_string s).

Definition no_small_letter (s : string) : Prop :=
  Forall (fun c => is_lower c = false) (list_ascii_of_string s).

(** What the search does to one character of the buffer. *)
Definition decoded_char (c d : ascii) : Prop :=
  if is_lower c then is_lower d = true else d = c.

(** Off the capitals, the search undoes the shift [t] as the cipher tool
    shifts by [-t]. *)
Definition undo_is_shiftb (t : Z) (c : ascii) : bool :=
  implb (1 <=? t)
    (is_upper c
     || (Ascii.eqb (undo_char t c) (shift_char (Z.rem (- t) 26) c)
         && implb (is_lower c) (is_lower (undo_char t c)))).

(** ** The runs of the program in binary64 *)










(** The rounds of the two loops of [normalize]. *)
Definition turn_down {D : Type} `{Double D} (x : D) : D := sub x (mul (of_int 2) PI).
Definition turn_up {D : Type} `{Double D} (x : D) : D := add x (mul (of_int 2) PI).

(** A run of [normalize] on [x]: [j1] subtractions of [2*PI], each from a
    value above [2*PI], lead to a value that is not above it; [j2]
    additions of [2*PI], each to a value below [-2*PI], lead on to [r],
    which is not below it. *)
Definition normalize_run {D : Type} `{Double D} (x : D) (fuel j1 j2 : nat) (r : D) : Prop :=
  let r1 := Nat.iter j1 turn_down x in
  (j1 <= fuel /\ j2 <= fuel)%nat
  /\ (forall i, (i < j1)%nat -> ltb (mul (of_int 2) PI) (Nat.iter i turn_down x) = true)
  /\ ltb (mul (of_int 2) PI) r1 = false
  /\ (forall i, (i < j2)%nat -> ltb (Nat.iter i turn_up r1) (mul (of_int (-2)) PI) = true)
  /\ ltb r (mul (of_int (-2)) PI) = false
  /\ r = Nat.iter j2 turn_up r1.

(** One round of a series loop [term *= q(n); sum += term; n++] on the
    state [(term, sum, n)], the term of round [n] and the sum after it, in
    binary64 and in the order of the loop. *)
Definition series_round (q : Z -> float) (s : float * float * Z) : float * float * Z :=
  let '(term, sum, n) := s in
  ((term * q n)%float, (sum + term * q n)%float, int_ (n + 1)).

Fixpoint series_term (q : Z -> float) (t0 : float) (n : nat) : float :=
  match n with
  | O => t0
  | Datatypes.S n' => (series_term q t0 n' * q (Z.of_nat n))%float
  end.

Fixpoint series_sum (q : Z -> float) (t0 u0 : float) (n : nat) : float :=
  match n with
  | O => u0
  | Datatypes.S n' => (series_sum q t0 u0 n' + series_term q t0 n)%float
  end.

(** A run of a series loop that is first tested after [lo] rounds: it stops
    after round [N], the first one from [lo] on whose term is not above
    [eps] in magnitude, with the sum [S]. *)
Definition series_run (q : Z -> float) (eps t0 u0 : float) (lo fuel N : nat) (S : float)
  : Prop :=
  (lo <= N <= lo + fuel)%nat
  /\ (forall i, (lo <= i < N)%nat -> ltb eps (abso (series_term q t0 i)) = true)
  /\ ltb eps (abso (series_term q t0 N)) = false
  /\ S = series_sum q t0 u0 N.

(** The ratios of [exp_], [sin_] and [cos_] in round [n]. *)
Definition exp_ratio (x : float) (n : Z) : float := (x / of_int n)%float.

Definition sin_ratio (x : float) (n : Z) : float :=
  (of_int (-1) * x * x / of_int (int_ (int_ (2 * n) * int_ (int_ (2 * n) + 1))))%float.

Definition cos_ratio (x : float) (n : Z) : float :=
  (of_int (-1) * x * x / of_int (int_ (int_ (int_ (2 * n) - 1) * int_ (2 * n))))%float.

(** * Proofs *)


(** ** Machine integers and runs *)

Lemma int_small (z : Z) : INT_MIN <= z <= INT_MAX -> int_ z = z.
Proof.
  unfold INT_MIN, INT_MAX, int_, wrap. intros Hz.
  rewrite Z.mod_small; lia.
Qed.

Lemma int_int_add (a b : Z) : int_ (int_ a + b) = int_ (a + b).
Proof.
  unfold int_, wrap.
  replace ((a + 2 ^ (32 - 1)) mod 2 ^ 32 - 2 ^ (32 - 1) + b + 2 ^ (32 - 1))
    with ((a + 2 ^ (32 - 1)) mod 2 ^ 32 + b) by lia.
  rewrite Zplus_mod_idemp_l. f_equal. f_equal. lia.
Qed.

Lemma bind_ret_l {A B} (a : A) (k : A -> run B) : bind (ret a) k = k a.
Proof. unfold bind, ret. destruct (k a); reflexivity. Qed.

Lemma bind_Ok_quiet {A B} (m : run A) (k : A -> run B) (a : A) :
  m = Ok a "" -> bind m k = k a.
Proof. intros ->. apply (bind_ret_l a k). Qed.

(** ** Counted loops *)

Section LoopFacts.
Context {S : Type}.

(** A loop [for (i = lo; i < hi; i++)] whose body does not read [i] applies
    the body [hi - lo] times. *)
Lemma for_upto_lt_const (f : S -> S) (hi : Z) :
  hi <= INT_MAX ->
  forall (n : nat) (i : Z) (s : S),
    INT_MIN <= i -> i + Z.of_nat n = hi ->
    for_upto n (fun i => i <? hi) i (fun _ => f) s = Nat.iter n f s.
Proof.
  intros Hhi n. induction n as [|n IH]; intros i s Hlo Hn; [reflexivity|].
  cbn [for_upto]. rewrite Nat.iter_succ_r.
  destruct (Z.ltb_spec i hi) as [_|Hge]; [|lia].
  rewrite int_small by (unfold INT_MIN, INT_MAX in *; lia).
  apply IH; unfold INT_MIN in *; lia.
Qed.

(** The same for a body that, on the states of an invariant [P], writes
    nothing, does not fault, and computes [g]. *)
Lemma forM_upto_lt_quiet (f : S -> run S) (g : S -> S) (P : S -> Prop) (hi : Z) :
  hi <= INT_MAX ->
  (forall s, P s -> f s = Ok (g s) "" /\ P (g s)) ->
  forall (n : nat) (i : Z) (s : S),
    P s -> INT_MIN <= i -> i + Z.of_nat n = hi ->
    forM_upto n (fun i => i <? hi) i (fun _ => f) s = Ok (Nat.iter n g s) "".
Proof.
  intros Hhi Hf n. induction n as [|n IH]; intros i s Hs Hlo Hn; [reflexivity|].
  cbn [forM_upto].
  destruct (Z.ltb_spec i hi) as [_|Hge]; [|lia].
  rewrite int_small by (unfold INT_MIN, INT_MAX in *; lia).
  destruct (Hf s Hs) as [Hrun Hgs].
  rewrite (bind_Ok_quiet _ _ _ Hrun), Nat.iter_succ_r.
  apply IH; [exact Hgs | unfold INT_MIN in *; lia | lia].
Qed.
End LoopFacts.

Section PowerFacts.
Context {D : Type} `{Double D}.

Lemma power_fold (num : D) (p : Z) :
  0 <= p <= INT_MAX ->
  power num p = fold_left mul (repeat num (Z.to_nat p)) (of_int 1).
Proof.
  intros Hp. unfold power, for_lt. rewrite Z.sub_0_r.
  rewrite for_upto_lt_const; try (unfold INT_MIN; lia).
  generalize (of_int 1). induction (Z.to_nat p) as [|n IH]; intros a.
  - reflexivity.
  - rewrite Nat.iter_succ_r. cbn [repeat fold_left]. apply IH.
Qed.

Lemma power_nonpos (num : D) (p : Z) : p <= 0 -> power num p = of_int 1.
Proof.
  intros Hp. unfold power, for_lt.
  replace (Z.to_nat (p - 0)) with O by lia. reflexivity.
Qed.
End PowerFacts.

(** ** The exact instance *)

Local Open Scope Q_scope.

Lemma Qltb_lt (x y : Q) : Qltb x y = true <-> x < y.
Proof.
  unfold Qltb. rewrite negb_true_iff, <- not_true_iff_false, Qle_bool_iff.
  split; [apply Qnot_le_lt | apply Qlt_not_le].
Qed.

Lemma Qltb_ge (x y : Q) : Qltb x y = false <-> y <= x.
Proof.
  unfold Qltb. rewrite negb_false_iff. apply Qle_bool_iff.
Qed.

Lemma Qeq_bool_false (x y : Q) : ~ x == y -> Qeq_bool x y = false.
Proof.
  intros Hne. apply not_true_iff_false. intros Heq.
  apply Hne, Qeq_bool_iff, Heq.
Qed.

Lemma Qdiv_guarded (x y : Q) : ~ y == 0 -> div x y = Some (x / y).
Proof. intros Hy. cbn. rewrite (Qeq_bool_false _ _ Hy). reflexivity. Qed.

Lemma Qdiv_faults (x y : Q) : y == 0 -> div x y = None.
Proof. intros Hy. cbn. apply Qeq_bool_iff in Hy. rewrite Hy. reflexivity. Qed.

Lemma Qdiv_pos (x y : Q) : 0 < x -> 0 < y -> 0 < x / y.
Proof.
  intros Hx Hy. apply Qlt_shift_div_l; [exact Hy|]. rewrite Qmult_0_l. exact Hx.
Qed.

(** ** [mySqrt] *)

Lemma mySqrt_negative {D : Type} `{Double D} (x : D) :
  ltb x (of_int 0) = true -> mySqrt x = Ok (of_int 0) sqrt_message.
Proof. intros Hx. unfold mySqrt. rewrite Hx. reflexivity. Qed.

Lemma newton_Q (x guess : Q) :
  0 < x -> 0 < guess ->
  newton x guess = Ok ((guess + x / guess) / lit 20 1) ""
  /\ 0 < (guess + x / guess) / lit 20 1.
Proof.
  intros Hx Hg. unfold newton.
  assert (Hq : 0 < x / guess) by (apply Qdiv_pos; assumption).
  rewrite Qdiv_guarded by (intros Hz; rewrite Hz in Hg; discriminate Hg).
  cbn [guard]. rewrite bind_ret_l.
  rewrite Qdiv_guarded by discriminate.
  split; [reflexivity|].
  apply Qdiv_pos; [|reflexivity].
  rewrite <- (Qplus_0_r 0). apply Qplus_lt_le_compat; [exact Hg | apply Qlt_le_weak, Hq].
Qed.

Lemma mySqrt_Q_positive (x : Q) :
  0 < x ->
  mySqrt x
  = Ok (Nat.iter 100 (fun guess => (guess + x / guess) / lit 20 1) (x / lit 20 1)) "".
Proof.
  intros Hx. unfold mySqrt.
  replace (ltb x (of_int 0)) with false
    by (symmetry; apply Qltb_ge, Qlt_le_weak, Hx).
  rewrite Qdiv_guarded by discriminate.
  cbn [guard]. rewrite bind_ret_l. unfold forM_lt.
  apply (forM_upto_lt_quiet (newton x) _ (fun g => 0 < g)).
  - unfold INT_MAX. lia.
  - intros g Hg. apply newton_Q; assumption.
  - apply Qdiv_pos; [exact Hx | reflexivity].
  - unfold INT_MIN. lia.
  - reflexivity.
Qed.

Lemma mySqrt_Q_zero (x : Q) : x == 0 -> mySqrt x = Fault DivisionByZero.
Proof.
  intros Hx. unfold mySqrt.
  replace (ltb x (of_int 0)) with false
    by (symmetry; apply Qltb_ge; rewrite Hx; apply Qle_refl).
  rewrite Qdiv_guarded by discriminate.
  cbn [guard]. rewrite bind_ret_l. unfold forM_lt.
  change (Z.to_nat (100 - 0)) with 100%nat.
  cbn [forM_upto Z.ltb Z.compare]. unfold newton.
  rewrite Qdiv_faults; [reflexivity|].
  rewrite Hx. reflexivity.
Qed.

Lemma mySqrt_F64_nonnegative (x : float) :
  ltb x (of_int 0) = false ->
  mySqrt x
  = Ok (Nat.iter 100 (fun guess => (guess + x / guess) / lit 20 1)%float
          (x / lit 20 1)%float) "".
Proof.
  intros Hx. unfold mySqrt. rewrite Hx.
  cbn [div F64 guard]. rewrite bind_ret_l. unfold forM_lt.
  apply (forM_upto_lt_quiet (newton x) _ (fun _ => True)).
  - unfold INT_MAX. lia.
  - intros g _. split; [reflexivity | exact I].
  - exact I.
  - unfold INT_MIN. lia.
  - reflexivity.
Qed.

(** ** [power] in exact arithmetic *)

Lemma Qpower_succ (z : Q) (n : nat) :
  z ^ Z.of_nat (Datatypes.S n) == z ^ Z.of_nat n * z.
Proof.
  rewrite Nat2Z.inj_succ. unfold Z.succ.
  rewrite Qpower_plus' by lia. rewrite Qpower_1_r. reflexivity.
Qed.

Lemma iter_mul_Qpower (z a : Q) (n : nat) :
  Nat.iter n (fun res => res * z) a == a * z ^ Z.of_nat n.
Proof.
  induction n as [|n IH].
  - cbn. ring.
  - rewrite Qpower_succ, Nat.iter_succ, IH. ring.
Qed.

Lemma power_Qpower (z : Q) (p : Z) :
  (0 <= p <= INT_MAX)%Z -> power z p == z ^ p.
Proof.
  intros Hp. unfold power, for_lt. rewrite Z.sub_0_r.
  rewrite for_upto_lt_const; try (unfold INT_MIN; lia).
  change (fun res : Q => mul res z) with (fun res : Q => res * z).
  rewrite iter_mul_Qpower, Z2Nat.id by lia.
  change (of_int 1) with 1. ring.
Qed.

Lemma Qabs_Qpower_half (z : Q) (n : nat) :
  Qabs z <= 1 # 2 -> Qabs (z ^ Z.of_nat n) <= (1 # 2) ^ Z.of_nat n.
Proof.
  intros Hz. induction n as [|n IH].
  - cbn. discriminate.
  - rewrite !Qpower_succ, Qabs_Qmult.
    apply Qmult_le_compat_nonneg; split;
      [apply Qabs_nonneg | exact IH | apply Qabs_nonneg | exact Hz].
Qed.

(** ** The series of [lnNear1] *)

Section WhileFacts.
Context {S : Type} (cond : S -> bool) (body : S -> run S).

Lemma while_done (fuel : nat) (s : S) :
  cond s = false -> while fuel cond body s = ret s.
Proof. intros Hc. destruct fuel; cbn; rewrite Hc; reflexivity. Qed.

Lemma while_step (fuel : nat) (s : S) :
  cond s = true ->
  while (Datatypes.S fuel) cond body s = bind (body s) (while fuel cond body).
Proof. intros Hc. cbn. rewrite Hc. reflexivity. Qed.
End WhileFacts.

Lemma abso_Qabs (y : Q) : abso y == Qabs y.
Proof.
  unfold abso. change (of_int 0) with 0. cbn [ltb neg QDouble].
  destruct (Qltb y 0) eqn:Hy.
  - apply Qltb_lt in Hy. symmetry. apply Qabs_neg, Qlt_le_weak, Hy.
  - apply Qltb_ge in Hy. symmetry. apply Qabs_pos, Hy.
Qed.

Lemma minus_one_even (m : Z) : (0 <= m)%Z -> (- (1)) ^ (2 * m) == 1.
Proof.
  intros _. rewrite Qpower_mult. change ((- (1)) ^ 2) with 1. apply Qpower_1.
Qed.

Lemma sign_Qpower (n : Z) :
  (0 <= n)%Z ->
  (if (Z.rem n 2 =? 0)%Z then of_int (-1) else of_int 1) == (- (1)) ^ (n + 1).
Proof.
  intros Hn. rewrite Z.rem_mod_nonneg by lia.
  assert (Hcases : (n mod 2 = 0 \/ n mod 2 = 1)%Z) by (pose proof (Z.mod_pos_bound n 2); lia).
  pose proof (Z.div_mod n 2 ltac:(lia)) as Hdiv.
  destruct Hcases as [H0|H1].
  - rewrite H0. cbn [Z.eqb]. rewrite H0, Z.add_0_r in Hdiv.
    rewrite Hdiv at 1. rewrite Qpower_plus' by lia.
    rewrite minus_one_even by (apply Z.div_pos; lia). reflexivity.
  - rewrite H1. cbn [Z.eqb].
    replace (n + 1)%Z with (2 * (n / 2 + 1))%Z by lia.
    rewrite minus_one_even by (pose proof (Z.div_pos n 2); lia). reflexivity.
Qed.

Lemma lnNear1_cond_Q (result : Q) (cnt : Z) (y : Q) :
  (lnNear1_cond (result, cnt, y) = true <-> eps10 < Qabs y)
  /\ (lnNear1_cond (result, cnt, y) = false <-> Qabs y <= eps10).
Proof.
  unfold lnNear1_cond. cbn [ltb QDouble]. fold eps10.
  rewrite Qltb_lt, Qltb_ge, abso_Qabs. split; reflexivity.
Qed.

Lemma lnNear1_body_Q (z result y0 : Q) (n : nat) :
  (1 <= n <= 100)%nat ->
  exists y : Q,
    lnNear1_body z (result, Z.of_nat n, y0)
    = Ok (result + y, (Z.of_nat n + 1)%Z, y) ""
    /\ y == taylor_term z (Z.of_nat n).
Proof.
  intros Hn. unfold lnNear1_body.
  set (sign := if (Z.rem (Z.of_nat n) 2 =? 0)%Z then of_int (-1) else of_int 1).
  exists (sign * power z (Z.of_nat n) / inject_Z (Z.of_nat n)). split.
  - change (of_int (Z.of_nat n)) with (inject_Z (Z.of_nat n)).
    rewrite Qdiv_guarded.
    + cbn [guard]. rewrite bind_ret_l.
      rewrite int_small by (unfold INT_MIN, INT_MAX; lia). reflexivity.
    + intros Hz. unfold Qeq in Hz. cbn in Hz. lia.
  - unfold taylor_term, sign.
    rewrite sign_Qpower by lia.
    rewrite power_Qpower by (unfold INT_MAX; lia). reflexivity.
Qed.

Lemma taylor_term_small (z : Q) :
  Qabs z <= 1 # 2 -> Qabs (taylor_term z 29) <= eps10.
Proof.
  intros Hz. unfold taylor_term.
  change ((- (1)) ^ (29 + 1)) with 1. rewrite Qmult_1_l.
  unfold Qdiv. rewrite Qabs_Qmult.
  apply Qle_trans with ((1 # 2) ^ 29 * Qabs (/ inject_Z 29)).
  - apply Qmult_le_compat_r; [|apply Qabs_nonneg].
    apply (Qabs_Qpower_half z 29 Hz).
  - vm_compute. discriminate.
Qed.

Section Series.
Variable z : Q.
Hypothesis Hz : Qabs z <= 1 # 2.

(** From the state after round [n], the loop stops after some round
    [N <= 29], the first one whose term is not above [1e-10]. *)
Lemma lnNear1_loop_Q (m : nat) :
  forall (n fuel : nat) (result y : Q),
    (n + m = 29)%nat -> (1 <= n)%nat -> (m <= fuel)%nat ->
    result == taylor_sum z n ->
    y == taylor_term z (Z.of_nat n) ->
    (forall i, (1 <= i < n)%nat -> eps10 < Qabs (taylor_term z (Z.of_nat i))) ->
    exists (N : nat) (T yN : Q),
      (n <= N <= 29)%nat
      /\ while fuel lnNear1_cond (lnNear1_body z) (result, (Z.of_nat n + 1)%Z, y)
         = Ok (T, (Z.of_nat N + 1)%Z, yN) ""
      /\ T == taylor_sum z N
      /\ Qabs (taylor_term z (Z.of_nat N)) <= eps10
      /\ (forall i, (1 <= i < N)%nat -> eps10 < Qabs (taylor_term z (Z.of_nat i))).
Proof.
  induction m as [|m IH]; intros n fuel result y Hnm Hn Hfuel Hres Hy Hbefore.
  - assert (n = 29%nat) by lia. subst n.
    assert (Hsmall : Qabs y <= eps10)
      by (rewrite Hy; apply taylor_term_small, Hz).
    exists 29%nat, result, y. repeat split; try lia.
    + apply while_done, lnNear1_cond_Q, Hsmall.
    + exact Hres.
    + rewrite <- Hy. exact Hsmall.
    + intros i Hi. apply Hbefore. lia.
  - destruct (lnNear1_cond (result, (Z.of_nat n + 1)%Z, y)) eqn:Hc.
    + destruct fuel as [|fuel]; [lia|].
      rewrite (while_step _ _ _ _ Hc).
      replace (Z.of_nat n + 1)%Z with (Z.of_nat (Datatypes.S n)) by lia.
      destruct (lnNear1_body_Q z result y (Datatypes.S n) ltac:(lia))
        as (y' & Hbody & Hy').
      rewrite (bind_Ok_quiet _ _ _ Hbody).
      apply lnNear1_cond_Q in Hc.
      destruct (IH (Datatypes.S n) fuel (result + y') y') as (N & T & yN & HN & Hrun & HT & Hstop & Hall).
      * lia.
      * lia.
      * lia.
      * cbn [taylor_sum]. rewrite Hres, Hy'. reflexivity.
      * exact Hy'.
      * intros i Hi. destruct (Nat.eq_dec i n) as [->|Hne].
        -- rewrite <- Hy. exact Hc.
        -- apply Hbefore. lia.
      * exists N, T, yN. repeat split; try lia; assumption.
    + exists n, result, y. repeat split; try lia.
      * apply while_done, Hc.
      * exact Hres.
      * rewrite <- Hy. apply lnNear1_cond_Q in Hc. exact Hc.
      * intros i Hi. apply Hbefore. lia.
Qed.
End Series.

Lemma lnNear1_Q (r : Q) (fuel : nat) :
  1 # 2 <= r <= 3 # 2 -> (28 <= fuel)%nat ->
  exists (N : nat) (T : Q),
    (1 <= N <= 29)%nat
    /\ lnNear1 fuel r = Ok T ""
    /\ T == taylor_sum (r - 1) N
    /\ Qabs (taylor_term (r - 1) (Z.of_nat N)) <= eps10
    /\ (forall i, (1 <= i < N)%nat ->
                  eps10 < Qabs (taylor_term (r - 1) (Z.of_nat i))).
Proof.
  intros Hr Hfuel. unfold lnNear1, do_while.
  change (sub r (of_int 1)) with (r - 1).
  assert (Hz : Qabs (r - 1) <= 1 # 2)
    by (apply Qabs_Qle_condition; split; lra).
  destruct (lnNear1_body_Q (r - 1) (of_int 0) (of_int 0) 1 ltac:(lia))
    as (y & Hbody & Hy).
  change (Z.of_nat 1) with 1%Z in Hbody.
  rewrite (bind_Ok_quiet _ _ _ Hbody).
  destruct (lnNear1_loop_Q (r - 1) Hz 28 1 fuel (of_int 0 + y) y)
    as (N & T & yN & HN & Hrun & HT & Hstop & Hall); try lia.
  - cbn [taylor_sum]. rewrite Hy. reflexivity.
  - exact Hy.
  - exists N, T. repeat split; try lia; try assumption.
    change (Z.of_nat 1 + 1)%Z with (1 + 1)%Z in Hrun.
    rewrite (bind_Ok_quiet _ _ _ Hrun). reflexivity.
Qed.

(** ** The reduction loops of [ln] *)

Lemma eQ_bounds : 2 < eQ /\ eQ < 3.
Proof. split; reflexivity. Qed.

Lemma eQ_power_pos (j : Z) : 0 < eQ ^ j.
Proof. apply Qpower_0_lt. reflexivity. Qed.

Ltac e_nonzero :=
  repeat split;
  first [discriminate | apply Qnot_eq_sym, Qlt_not_eq, eQ_power_pos].

Lemma ln_down_Q (n : nat) :
  forall (fuel : nat) (num : Q) (k : Z),
    (n <= fuel)%nat -> 0 < num -> num <= (3 # 2) * 2 ^ Z.of_nat n ->
    exists (j : nat) (r : Q),
      (j <= n)%nat
      /\ ln_down fuel num (int_ k) = Ok (r, int_ (k + Z.of_nat j)) ""
      /\ r == num / eQ ^ Z.of_nat j
      /\ r <= 3 # 2
      /\ (j = 0%nat -> r = num)
      /\ (forall i, (i < j)%nat -> 3 # 2 < num / eQ ^ Z.of_nat i).
Proof.
  induction n as [|n IH]; intros fuel num k Hfuel Hpos Hnum.
  - exists 0%nat, num. repeat split; try lia.
    + unfold ln_down. rewrite while_done.
      * rewrite Z.add_0_r. reflexivity.
      * apply Qltb_ge. change (lit 15 1) with (15 # 10).
        cbn in Hnum. lra.
    + cbn. field.
    + cbn in Hnum. lra.
  - destruct (Qltb (lit 15 1) num) eqn:Hc.
    + destruct fuel as [|fuel]; [lia|].
      unfold ln_down. rewrite while_step by exact Hc.
      fold eQ. rewrite Qdiv_guarded by discriminate.
      cbn [guard]. rewrite !bind_ret_l, int_int_add.
      apply Qltb_lt in Hc. change (lit 15 1) with (15 # 10) in Hc.
      destruct (IH fuel (num / eQ) (k + 1)%Z) as (j & r & Hj & Hrun & Hr & Hle & Hzero & Hall).
      * lia.
      * apply Qdiv_pos; [exact Hpos | reflexivity].
      * rewrite Qpower_succ in Hnum.
        apply Qle_shift_div_r; [reflexivity|].
        pose proof eQ_bounds as [He _].
        assert (Hp : 0 < 2 ^ Z.of_nat n) by (apply Qpower_0_lt; reflexivity).
        nra.
      * exists (Datatypes.S j), r. repeat split; try lia.
        -- replace (k + Z.of_nat (Datatypes.S j))%Z with (k + 1 + Z.of_nat j)%Z by lia.
           exact Hrun.
        -- rewrite Hr, Qpower_succ. field. e_nonzero.
        -- exact Hle.
        -- intros i Hi. destruct i as [|i].
           ++ cbn. unfold Qdiv. rewrite Qmult_1_r. lra.
           ++ specialize (Hall i ltac:(lia)).
              rewrite Qpower_succ.
              setoid_replace (num / (eQ ^ Z.of_nat i * eQ))
                with (num / eQ / eQ ^ Z.of_nat i); [exact Hall|].
              field. e_nonzero.
    + exists 0%nat, num. repeat split; try lia.
      * unfold ln_down. rewrite while_done by exact Hc.
        rewrite Z.add_0_r. reflexivity.
      * cbn. field.
      * apply Qltb_ge in Hc. change (lit 15 1) with (15 # 10) in Hc. lra.
Qed.

Lemma ln_up_Q (n : nat) :
  forall (fuel : nat) (num : Q) (k : Z),
    (n <= fuel)%nat -> 0 < num -> 1 # 2 <= num * 2 ^ Z.of_nat n ->
    exists (j : nat) (r : Q),
      (j <= n)%nat
      /\ ln_up fuel num (int_ k) = Ok (r, int_ (k - Z.of_nat j)) ""
      /\ r == num * eQ ^ Z.of_nat j
      /\ 1 # 2 <= r
      /\ (j = 0%nat -> r = num)
      /\ (forall i, (i < j)%nat -> num * eQ ^ Z.of_nat i < 1 # 2).
Proof.
  induction n as [|n IH]; intros fuel num k Hfuel Hpos Hnum.
  - exists 0%nat, num. repeat split; try lia.
    + unfold ln_up. rewrite while_done.
      * rewrite Z.sub_0_r. reflexivity.
      * apply Qltb_ge. change (lit 5 1) with (5 # 10).
        cbn in Hnum. lra.
    + cbn. ring.
    + cbn in Hnum. lra.
  - destruct (Qltb num (lit 5 1)) eqn:Hc.
    + destruct fuel as [|fuel]; [lia|].
      unfold ln_up. rewrite while_step by exact Hc.
      fold eQ. rewrite !bind_ret_l.
      change (int_ k - 1)%Z with (int_ k + -1)%Z. rewrite int_int_add.
      apply Qltb_lt in Hc. change (lit 5 1) with (5 # 10) in Hc.
      pose proof eQ_bounds as [He _].
      destruct (IH fuel (num * eQ) (k + -1)%Z) as (j & r & Hj & Hrun & Hr & Hle & Hzero & Hall).
      * lia.
      * apply Qmult_lt_0_compat; [exact Hpos | reflexivity].
      * rewrite Qpower_succ in Hnum.
        assert (Hp : 0 < 2 ^ Z.of_nat n) by (apply Qpower_0_lt; reflexivity).
        nra.
      * exists (Datatypes.S j), r. repeat split; try lia.
        -- replace (k - Z.of_nat (Datatypes.S j))%Z with (k + -1 - Z.of_nat j)%Z by lia.
           exact Hrun.
        -- rewrite Hr, Qpower_succ. ring.
        -- exact Hle.
        -- intros i Hi. destruct i as [|i].
           ++ cbn. lra.
           ++ specialize (Hall i ltac:(lia)).
              rewrite Qpower_succ.
              setoid_replace (num * (eQ ^ Z.of_nat i * eQ))
                with (num * eQ * eQ ^ Z.of_nat i) by ring.
              exact Hall.
    + exists 0%nat, num. repeat split; try lia.
      * unfold ln_up. rewrite while_done by exact Hc.
        rewrite Z.sub_0_r. reflexivity.
      * cbn. ring.
      * apply Qltb_ge in Hc. change (lit 5 1) with (5 # 10) in Hc. lra.
Qed.

Lemma double_range_pos (x : Q) : double_range x -> 0 < x.
Proof.
  intros [Hlo _]. apply Qlt_le_trans with (2 ^ (-1074)); [|exact Hlo].
  apply Qpower_0_lt. reflexivity.
Qed.

Lemma rounds_of_double (x : Q) : double_range x -> rounds_suffice x 1024 1073.
Proof.
  intros [Hlo Hhi]. split.
  - assert (0 < 2 ^ Z.of_nat 1024) by (apply Qpower_0_lt; reflexivity).
    change (Z.of_nat 1024) with 1024%Z in *. lra.
  - apply Qle_trans with (2 ^ (-1074) * 2 ^ Z.of_nat 1073).
    + rewrite <- Qpower_plus by discriminate. discriminate.
    + apply Qmult_le_compat_r; [exact Hlo|].
      apply Qpower_0_le. discriminate.
Qed.

Lemma pow2_Qpower (p : positive) : Z.pos (2 ^ p) # 1 == 2 ^ Z.pos p.
Proof.
  rewrite Pos2Z.inj_pow.
  change (Z.pos 2 ^ Z.pos p # 1) with (inject_Z (2 ^ Z.pos p)).
  rewrite Zpower_Qpower by lia. reflexivity.
Qed.

Lemma rounds_exist (x : Q) : 0 < x -> exists n1 n2, rounds_suffice x n1 n2.
Proof.
  intros Hpos.
  destruct (Qarchimedean_power2_pos x) as [p1 Hp1].
  destruct (Qarchimedean_power2_pos (/ x)) as [p2 Hp2].
  rewrite pow2_Qpower in Hp1, Hp2.
  exists (Pos.to_nat p1), (Pos.to_nat p2). unfold rounds_suffice.
  rewrite !positive_nat_Z. split.
  - assert (0 < 2 ^ Z.pos p1) by (apply Qpower_0_lt; reflexivity). lra.
  - assert (H1 : 1 < x * 2 ^ Z.pos p2).
    { apply Qmult_lt_l with (z := x) in Hp2; [|exact Hpos].
      rewrite Qmult_inv_r in Hp2; [exact Hp2|].
      intros H0. rewrite H0 in Hpos. discriminate Hpos. }
    lra.
Qed.

Lemma ln_reduce_Q (x : Q) (n1 n2 fuel : nat) :
  0 < x -> rounds_suffice x n1 n2 -> (n1 <= fuel)%nat -> (n2 <= fuel)%nat ->
  exists (j1 j2 : nat) (r1 r : Q),
    (j1 <= n1)%nat /\ (j2 <= n2)%nat /\ (j1 = 0 \/ j2 = 0)%nat
    /\ ln_down fuel x 0 = Ok (r1, int_ (Z.of_nat j1)) ""
    /\ ln_up fuel r1 (int_ (Z.of_nat j1))
       = Ok (r, int_ (Z.of_nat j1 - Z.of_nat j2)) ""
    /\ 1 # 2 <= r <= 3 # 2
    /\ r == x / eQ ^ Z.of_nat j1 * eQ ^ Z.of_nat j2
    /\ (forall i, (i < j1)%nat -> 3 # 2 < x / eQ ^ Z.of_nat i)
    /\ (forall i, (i < j2)%nat -> x * eQ ^ Z.of_nat i < 1 # 2).
Proof.
  intros Hpos [Hn1 Hn2] Hfuel1 Hfuel2. pose proof eQ_bounds as [He2 He3].
  destruct (ln_down_Q n1 fuel x 0 Hfuel1 Hpos Hn1)
    as (j1 & r1 & Hj1 & Hrun1 & Hr1 & Hle1 & Hz1 & Hall1).
  assert (Hr1pos : 0 < r1).
  { rewrite Hr1. apply Qdiv_pos; [exact Hpos | apply eQ_power_pos]. }
  assert (Hr1lo : (0 < j1)%nat -> 1 # 2 < r1).
  { intros Hj. specialize (Hall1 (j1 - 1)%nat ltac:(lia)).
    assert (Hr1' : r1 == x / eQ ^ Z.of_nat (j1 - 1) / eQ).
    { rewrite Hr1. replace j1 with (Datatypes.S (j1 - 1)) at 1 by lia.
      rewrite Qpower_succ. field. e_nonzero. }
    rewrite Hr1'. apply Qlt_shift_div_l; [reflexivity|]. lra. }
  destruct (ln_up_Q n2 fuel r1 (0 + Z.of_nat j1) Hfuel2 Hr1pos)
    as (j2 & r2 & Hj2 & Hrun2 & Hr2 & Hle2 & Hz2 & Hall2).
  { destruct j1 as [|j1].
    - rewrite (Hz1 eq_refl). exact Hn2.
    - specialize (Hr1lo ltac:(lia)).
      assert (1 <= 2 ^ Z.of_nat n2) by (apply Qpower_1_le; [discriminate | lia]).
      nra. }
  assert (Hex : (j1 = 0 \/ j2 = 0)%nat).
  { destruct j1 as [|j1]; [left; reflexivity | right].
    destruct j2 as [|j2]; [reflexivity|].
    specialize (Hall2 0%nat ltac:(lia)). specialize (Hr1lo ltac:(lia)).
    cbn in Hall2. lra. }
  exists j1, j2, r1, r2. repeat split; try lia.
  - exact Hrun1.
  - exact Hrun2.
  - exact Hle2.
  - destruct j2 as [|j2].
    + rewrite (Hz2 eq_refl). exact Hle1.
    + specialize (Hall2 j2 ltac:(lia)).
      rewrite Hr2, Qpower_succ.
      assert (0 < r1 * eQ ^ Z.of_nat j2)
        by (apply Qmult_lt_0_compat; [exact Hr1pos | apply eQ_power_pos]).
      nra.
  - rewrite Hr2, Hr1. reflexivity.
  - exact Hall1.
  - intros i Hi. destruct Hex as [->| ->]; [|lia].
    rewrite <- (Hz1 eq_refl). apply Hall2, Hi.
Qed.

Lemma ln_Q_composes (x r1 r T : Q) (k1 k : Z) (fuel : nat) :
  0 < x ->
  ln_down fuel x 0 = Ok (r1, k1) "" ->
  ln_up fuel r1 k1 = Ok (r, k) "" ->
  lnNear1 fuel r = Ok T "" ->
  ln fuel x = Ok (inject_Z k + T) "".
Proof.
  intros Hpos Hdown Hup Hser. unfold ln.
  replace (eqb x (of_int 0)) with false
    by (symmetry; apply Qeq_bool_false; intros H0; rewrite H0 in Hpos; discriminate Hpos).
  replace (ltb x (of_int 0)) with false
    by (symmetry; apply Qltb_ge, Qlt_le_weak, Hpos).
  rewrite (bind_Ok_quiet _ _ _ Hdown). cbv beta iota.
  rewrite (bind_Ok_quiet _ _ _ Hup). cbv beta iota.
  rewrite (bind_Ok_quiet _ _ _ Hser). reflexivity.
Qed.

Lemma ln_Q_run (x : Q) (n1 n2 fuel : nat) :
  0 < x -> rounds_suffice x n1 n2 ->
  (n1 <= fuel)%nat -> (n2 <= fuel)%nat -> (28 <= fuel)%nat ->
  exists (j1 j2 N : nat) (r1 r T : Q),
    (j1 <= n1)%nat /\ (j2 <= n2)%nat /\ ln_computes x fuel j1 j2 N r1 r T.
Proof.
  intros Hpos Hn Hfuel1 Hfuel2 Hfuel3.
  destruct (ln_reduce_Q x n1 n2 fuel Hpos Hn Hfuel1 Hfuel2)
    as (j1 & j2 & r1 & r & Hj1 & Hj2 & Hex & Hdown & Hup & Hr & Hrx & Hall1 & Hall2).
  destruct (lnNear1_Q r fuel Hr Hfuel3)
    as (N & T & HN & Hser & HT & Hstop & Hbefore).
  exists j1, j2, N, r1, r, T. split; [exact Hj1|]. split; [exact Hj2|].
  unfold ln_computes.
  split; [exact Hdown|]. split; [exact Hup|]. split; [exact Hser|].
  split; [exact (ln_Q_composes _ _ _ _ _ _ _ Hpos Hdown Hup Hser)|].
  split; [exact Hex|]. split; [exact Hall1|]. split; [exact Hall2|].
  split; [exact Hr|].
  split.
  { rewrite Hrx. destruct Hex as [-> | ->].
    - rewrite Z.sub_0_l, Qpower_opp. cbn [Z.of_nat]. field. e_nonzero.
    - rewrite Z.sub_0_r. cbn [Z.of_nat]. field. e_nonzero. }
  repeat split; try lia; assumption.
Qed.

(** In exact arithmetic, on every [x > 0] and with enough fuel, [ln]
    returns [k + T] and writes nothing: [j1] divisions by [e], as long as
    the quotient exceeds 1.5, or [j2] multiplications by [e], as long as the
    product is below 0.5, lead to an [r] of [[0.5, 1.5]] with
    [x = r * e^(j1 - j2)], and [T] is the sum of the series up to the first
    term whose magnitude is not greater than [1e-10].  On the range of
    [double] fuel 1073 is enough and [j1 - j2] is an [int]. *)
Lemma ln_exact_run (x : Q) :
  0 < x ->
  exists fuel0 : nat,
    (double_range x -> fuel0 = 1073%nat)
    /\ forall fuel : nat,
        (fuel0 <= fuel)%nat ->
        exists (j1 j2 N : nat) (r1 r T : Q),
          ln_computes x fuel j1 j2 N r1 r T
          /\ (double_range x ->
              int_ (Z.of_nat j1 - Z.of_nat j2) = (Z.of_nat j1 - Z.of_nat j2)%Z).
Proof.
  intros Hpos.
  destruct (Qlt_le_dec x (2 ^ (-1074))) as [Hsmall | Hlo].
  - destruct (rounds_exist x Hpos) as (n1 & n2 & Hn).
    exists (n1 + n2 + 28)%nat. split.
    + intros [Hlo _]. exfalso. apply (Qlt_not_le _ _ Hsmall), Hlo.
    + intros fuel Hfuel.
      destruct (ln_Q_run x n1 n2 fuel Hpos Hn) as (j1 & j2 & N & r1 & r & T & _ & _ & Hrun);
        try lia.
      exists j1, j2, N, r1, r, T. split; [exact Hrun|].
      intros [Hlo _]. exfalso. apply (Qlt_not_le _ _ Hsmall), Hlo.
  - destruct (Qlt_le_dec (2 ^ 1024) x) as [Hbig | Hhi].
    + destruct (rounds_exist x Hpos) as (n1 & n2 & Hn).
      exists (n1 + n2 + 28)%nat. split.
      * intros [_ Hhi]. exfalso. apply (Qlt_not_le _ _ Hbig), Hhi.
      * intros fuel Hfuel.
        destruct (ln_Q_run x n1 n2 fuel Hpos Hn) as (j1 & j2 & N & r1 & r & T & _ & _ & Hrun);
          try lia.
        exists j1, j2, N, r1, r, T. split; [exact Hrun|].
        intros [_ Hhi]. exfalso. apply (Qlt_not_le _ _ Hbig), Hhi.
    + exists 1073%nat. split; [reflexivity|].
      intros fuel Hfuel.
      destruct (ln_Q_run x 1024 1073 fuel Hpos (rounds_of_double x (conj Hlo Hhi)))
        as (j1 & j2 & N & r1 & r & T & Hj1 & Hj2 & Hrun); try lia.
      exists j1, j2, N, r1, r, T. split; [exact Hrun|].
      intros _. apply int_small. unfold INT_MIN, INT_MAX. lia.
Qed.

(** ** The error branches of [ln] *)

Lemma ln_zero {D : Type} `{Double D} (fuel : nat) (num : D) :
  eqb num (of_int 0) = true -> ln fuel num = Ok (of_int 0) "NOT DEFINED".
Proof. intros Hz. unfold ln. rewrite Hz. reflexivity. Qed.

Lemma ln_negative {D : Type} `{Double D} (fuel : nat) (num : D) :
  eqb num (of_int 0) = false -> ltb num (of_int 0) = true ->
  ln fuel num = Ok (of_int 0) "Invalid Input".
Proof. intros Hz Hneg. unfold ln. rewrite Hz, Hneg. reflexivity. Qed.

(** C4: [ln] writes "NOT DEFINED" and returns 0 on input 0, writes
    "Invalid Input" and returns 0 on every negative input, -1 among them, and
    on a positive input it writes nothing; each of these runs returns a
    value, none ends in a fault. *)
Theorem ln_fails_on_nonpositive (x : Q) (fuel : nat) :
  (x == 0 -> ln fuel x = Ok 0 "NOT DEFINED")
  /\ (x < 0 -> ln fuel x = Ok 0 "Invalid Input")
  /\ (0 < x ->
      exists fuel0 : nat,
        forall fuel', (fuel0 <= fuel')%nat -> exists v, ln fuel' x = Ok v "")
  /\ ln (D:=float) fuel (of_int (-1)) = Ok (of_int 0) "Invalid Input"
  /\ ln (D:=float) fuel (of_int 0) = Ok (of_int 0) "NOT DEFINED".
Proof.
  split; [|split; [|split; [|split]]].
  - intros H0. exact (ln_zero fuel x (proj2 (Qeq_bool_iff x 0) H0)).
  - intros Hneg. refine (ln_negative fuel x _ (proj2 (Qltb_lt x 0) Hneg)).
    apply Qeq_bool_false. intros H0. rewrite H0 in Hneg. discriminate Hneg.
  - intros Hpos. destruct (rounds_exist x Hpos) as (n1 & n2 & Hn).
    exists (n1 + n2 + 28)%nat. intros fuel' Hfuel.
    destruct (ln_Q_run x n1 n2 fuel' Hpos Hn)
      as (j1 & j2 & N & r1 & r & T & _ & _ & _ & _ & _ & Hln & _); try lia.
    eexists. exact Hln.
  - apply ln_negative; reflexivity.
  - apply ln_zero; reflexivity.
Qed.

Lemma ln_fails_witness :
  ln 0 (- (1)) = Ok 0 "Invalid Input"
  /\ ln 0 (0 # 5) = Ok 0 "NOT DEFINED"
  /\ exists fuel0 : nat,
       forall fuel', (fuel0 <= fuel')%nat -> exists v, ln fuel' (3 # 1) = Ok v "".
Proof.
  split; [|split].
  - apply (ln_fails_on_nonpositive (- (1)) 0). reflexivity.
  - apply (ln_fails_on_nonpositive (0 # 5) 0). reflexivity.
  - apply (ln_fails_on_nonpositive (3 # 1) 0). reflexivity.
Defined.

(** ** [hasDecimal] *)

Lemma Qtrunc_floor_ceiling (x : Q) :
  Qtrunc x = if Qltb x 0 then Qceiling x else Qfloor x.
Proof.
  destruct x as [n d]. unfold Qtrunc, Qceiling, Qfloor. cbn [Qnum Qden Qopp].
  destruct (Qltb (n # d) 0) eqn:Hs.
  - apply Qltb_lt in Hs. unfold Qlt in Hs. cbn in Hs.
    replace n with (- (- n))%Z at 1 by lia.
    rewrite Z.quot_opp_l by lia. rewrite Z.quot_div_nonneg by lia. reflexivity.
  - apply Qltb_ge in Hs. unfold Qle in Hs. cbn in Hs.
    apply Z.quot_div_nonneg; lia.
Qed.

(** ** Characters and strings *)

Local Open Scope Z_scope.

Lemma all_ascii_complete (c : ascii) : In c all_ascii.
Proof.
  unfold all_ascii. rewrite <- (ascii_nat_embedding c).
  apply in_map, in_seq. pose proof (nat_ascii_bounded c). lia.
Qed.

Lemma forall_ascii (P : ascii -> bool) :
  forallb P all_ascii = true -> forall c, P c = true.
Proof.
  intros Hall c. rewrite forallb_forall in Hall. apply Hall, all_ascii_complete.
Qed.

Lemma small_shifts_complete (t : Z) : -26 < t < 26 -> In t small_shifts.
Proof.
  intros Ht. unfold small_shifts.
  replace t with (Z.of_nat (Z.to_nat (t + 25)) - 25) by lia.
  apply (in_map (fun n => Z.of_nat n - 25)), in_seq. lia.
Qed.

Lemma forall_small_shifts (P : Z -> ascii -> bool) :
  forallb (fun t => forallb (P t) all_ascii) small_shifts = true ->
  forall t c, -26 < t < 26 -> P t c = true.
Proof.
  intros Hall t c Ht. rewrite forallb_forall in Hall.
  apply forall_ascii, Hall, small_shifts_complete, Ht.
Qed.

Lemma append_empty_r (s : string) : (s ++ "")%string = s.
Proof. induction s as [|c s IH]; cbn; [reflexivity | rewrite IH; reflexivity]. Qed.

Lemma append_assoc (s t u : string) : ((s ++ t) ++ u = s ++ (t ++ u))%string.
Proof. induction s as [|c s IH]; cbn; [reflexivity | rewrite IH; reflexivity]. Qed.

Lemma string_map_map (f g : ascii -> ascii) (s : string) :
  string_map f (string_map g s) = string_map (fun c => f (g c)) s.
Proof. induction s as [|c s IH]; cbn; [reflexivity | rewrite IH; reflexivity]. Qed.

Lemma string_map_length (f : ascii -> ascii) (s : string) :
  String.length (string_map f s) = String.length s.
Proof. induction s as [|c s IH]; cbn; [reflexivity | rewrite IH; reflexivity]. Qed.

Lemma string_map_id (f : ascii -> ascii) (s : string) :
  (forall c, f c = c) -> string_map f s = s.
Proof.
  intros Hf. induction s as [|c s IH]; cbn; [reflexivity | rewrite Hf, IH; reflexivity].
Qed.

(** ** Ceaser_Cipher.cpp *)

Lemma loop_map (sv : Z) (ip : string) :
  forall op, loop sv ip op = (op ++ string_map (shift_char sv) ip)%string.
Proof.
  induction ip as [|ch rest IH]; intros op; cbn [loop string_map].
  - symmetry. apply append_empty_r.
  - rewrite IH, append_assoc. reflexivity.
Qed.

Lemma transform_map (sv : Z) (ip : string) :
  transform sv ip = string_map (shift_char (Z.rem sv 26)) ip.
Proof. unfold transform. apply loop_map. Qed.

Lemma shift_char_round_trip (t : Z) (c : ascii) :
  -26 < t < 26 -> shift_char (- t) (shift_char t c) = c.
Proof.
  intros Ht. apply Ascii.eqb_eq.
  apply (forall_small_shifts round_tripb); [vm_compute; reflexivity | exact Ht].
Qed.

Lemma shift_char_case_kept (t : Z) (c : ascii) :
  -26 < t < 26 -> case_kept c (shift_char t c).
Proof.
  intros Ht.
  assert (Hb : case_keptb t c = true)
    by (apply (forall_small_shifts case_keptb); [vm_compute; reflexivity | exact Ht]).
  unfold case_keptb in Hb. apply andb_prop in Hb as [Hb H3].
  apply andb_prop in Hb as [H1 H2]. repeat split.
  - intros Hl. rewrite Hl in H1. exact H1.
  - intros Hu. rewrite Hu in H2. exact H2.
  - intros Hl Hu. rewrite Hl, Hu in H3. apply Ascii.eqb_eq, H3.
Qed.

Lemma rem_26_small (sv : Z) : -26 < Z.rem sv 26 < 26.
Proof.
  pose proof (Z.rem_bound_abs sv 26 ltac:(lia)). lia.
Qed.

Lemma transform_inverse (sv : Z) (s : string) :
  transform (- sv) (transform sv s) = s.
Proof.
  rewrite !transform_map, string_map_map, Z.rem_opp_l by lia.
  apply string_map_id. intros c. apply shift_char_round_trip, rem_26_small.
Qed.

Lemma transform_case_kept (sv : Z) (s : string) :
  Forall2 case_kept (list_ascii_of_string s) (list_ascii_of_string (transform sv s)).
Proof.
  rewrite transform_map. induction s as [|c s IH]; cbn; constructor.
  - apply shift_char_case_kept, rem_26_small.
  - exact IH.
Qed.

(** C6: shifting a string by 3 and then by -3 gives the string back; each
    of the two passes keeps the case of every letter and leaves every other
    character as it is; "Attack" becomes "Dwwdfn" and comes back. *)
Theorem caesar_round_trip (s : string) :
  transform (-3) (transform 3 s) = s
  /\ Forall2 case_kept (list_ascii_of_string s)
       (list_ascii_of_string (transform 3 s))
  /\ Forall2 case_kept (list_ascii_of_string (transform 3 s))
       (list_ascii_of_string (transform (-3) (transform 3 s)))
  /\ transform 3 "Attack" = "Dwwdfn"%string
  /\ transform (-3) "Dwwdfn" = "Attack"%string.
Proof.
  split; [apply (transform_inverse 3)|].
  split; [apply transform_case_kept|].
  split; [apply transform_case_kept|].
  split; reflexivity.
Qed.

(** ** Level2.cpp *)

Lemma vowel_is_lower (c : ascii) : is_vowel c = true -> is_lower c = true.
Proof.
  intros Hv.
  assert (H : implb (is_vowel c) (is_lower c) = true)
    by (apply (forall_ascii (fun c => implb (is_vowel c) (is_lower c))); reflexivity).
  rewrite Hv in H. exact H.
Qed.

Lemma vowels_bounds (s : string) : 0 <= vowels s <= Zlength s.
Proof.
  unfold Zlength. induction s as [|c s IH]; cbn [vowels String.length]; [lia|].
  destruct (is_vowel c); lia.
Qed.

Lemma decode_text (shift : Z) (cipher : string) :
  forall v w, fst (decode shift cipher v) = fst (decode shift cipher w).
Proof.
  induction cipher as [|ch rest IH]; intros v w; cbn [decode]; [reflexivity|].
  destruct (is_lower ch).
  - cbv zeta.
    set (v' := if is_vowel _ then int_ (v + 1) else v).
    set (w' := if is_vowel _ then int_ (w + 1) else w).
    specialize (IH v' w').
    destruct (decode shift rest v'), (decode shift rest w'). cbn in *. congruence.
  - specialize (IH v w).
    destruct (decode shift rest v), (decode shift rest w). cbn in *. congruence.
Qed.

(** The counter of the inner loop ends at the number of lowercase vowels of
    the decoded text, as long as it stays an [int]. *)
Lemma decode_count (shift : Z) (cipher : string) :
  forall v, 0 <= v -> v + Zlength cipher <= INT_MAX ->
    snd (decode shift cipher v) = v + vowels (fst (decode shift cipher v)).
Proof.
  unfold Zlength.
  induction cipher as [|ch rest IH]; intros v Hv Hlen; cbn [decode]; [cbn; lia|].
  cbn [String.length] in Hlen.
  destruct (is_lower ch) eqn:Hl; cbv zeta.
  - destruct (is_vowel (decode_char shift ch)) eqn:Hvow.
    + rewrite int_small by (unfold INT_MIN, INT_MAX in *; lia).
      specialize (IH (v + 1) ltac:(lia) ltac:(lia)).
      destruct (decode shift rest (v + 1)) as [d n]. cbn [fst snd vowels] in *.
      rewrite Hvow. lia.
    + specialize (IH v ltac:(lia) ltac:(lia)).
      destruct (decode shift rest v) as [d n]. cbn [fst snd vowels] in *.
      rewrite Hvow. lia.
  - specialize (IH v ltac:(lia) ltac:(lia)).
    destruct (decode shift rest v) as [d n]. cbn [fst snd vowels] in *.
    destruct (is_vowel ch) eqn:Hvow; [|lia].
    apply vowel_is_lower in Hvow. congruence.
Qed.

Lemma decode_spec (shift : Z) (cipher : string) :
  Zlength cipher <= 199 ->
  decode shift cipher 0 = (decoded shift cipher, score shift cipher).
Proof.
  intros Hlen. unfold score, decoded.
  rewrite (surjective_pairing (decode shift cipher 0)) at 1.
  rewrite decode_count by (unfold INT_MAX; lia). reflexivity.
Qed.

Lemma c_str_length (n : nat) (line : string) :
  (String.length (c_str n line) <= n)%nat.
Proof.
  revert line. induction n as [|n IH]; intros line; cbn [c_str]; [cbn; lia|].
  destruct line as [|ch rest]; [cbn; lia|].
  destruct (code ch =? 0); cbn [String.length]; [lia|].
  specialize (IH rest). lia.
Qed.

Lemma getline_length (line : string) : Zlength (getline 200 line) <= 199.
Proof.
  unfold Zlength, getline. pose proof (c_str_length (200 - 1) line). lia.
Qed.

Lemma try_shift_best (cipher : string) (i : Z) (b : best) :
  Zlength cipher <= 199 -> 1 <= i ->
  best_upto cipher (i - 1) b -> best_upto cipher i (try_shift cipher i b).
Proof.
  intros Hlen Hi. destruct b as [[bs bsc] bt]. unfold try_shift.
  rewrite decode_spec by exact Hlen.
  pose proof (vowels_bounds (decoded i cipher)) as Hsc. fold (score i cipher) in Hsc.
  intros [[Hm Hinit] | (Hbs & Hbsc & Hbt & Hmax & Hfirst)].
  - subst bsc. assert (i = 1) by lia. subst i.
    destruct (Z.ltb_spec (-1) (score 1 cipher)) as [_|Hge]; [|lia].
    right. repeat split; try lia.
    + intros t Ht. assert (t = 1) by lia. subst t. lia.
  - destruct (Z.ltb_spec bsc (score i cipher)) as [Hlt|Hge].
    + right. repeat split; try lia.
      * intros t Ht. destruct (Z.eq_dec t i) as [->|Hne]; [lia|].
        specialize (Hmax t ltac:(lia)). lia.
      * intros t Ht. specialize (Hmax t ltac:(lia)). lia.
    + right. repeat split; try lia; try assumption.
      intros t Ht. destruct (Z.eq_dec t i) as [->|Hne]; [lia|].
      apply Hmax. lia.
Qed.

Lemma search_loop_best (cipher : string) (n : nat) :
  Zlength cipher <= 199 ->
  forall (i : Z) (b : best),
    1 <= i -> i + Z.of_nat n = 26 ->
    best_upto cipher (i - 1) b ->
    best_upto cipher 25 (for_upto n (fun i => i <=? 25) i (try_shift cipher) b).
Proof.
  intros Hlen. induction n as [|n IH]; intros i b Hi Hn Hb.
  - cbn [for_upto]. replace 25 with (i - 1) by lia. exact Hb.
  - cbn [for_upto]. destruct (Z.leb_spec i 25) as [_|Hgt]; [|lia].
    rewrite int_small by (unfold INT_MIN, INT_MAX; lia).
    apply IH; [lia | lia |].
    replace (i + 1 - 1) with i by lia.
    apply try_shift_best; assumption.
Qed.

Lemma search_best (cipher : string) :
  Zlength cipher <= 199 ->
  exists bestShift bestScore,
    search cipher = (bestShift, bestScore, decoded bestShift cipher)
    /\ 1 <= bestShift <= 25
    /\ (forall t, 1 <= t <= 25 -> score t cipher <= score bestShift cipher)
    /\ (forall t, 1 <= t < bestShift -> score t cipher < score bestShift cipher).
Proof.
  intros Hlen.
  assert (Hb : best_upto cipher 25 (search cipher)).
  { apply (search_loop_best cipher 25 Hlen 1); [lia | lia |].
    left. split; reflexivity. }
  destruct (search cipher) as [[bs bsc] bt]. unfold best_upto in Hb.
  destruct Hb as [[Hm _] | (Hbs & Hbsc & Hbt & Hmax & Hfirst)].
  - lia.
  - subst bsc bt. exists bs, (score bs cipher). repeat split; try lia; assumption.
Qed.

Lemma decoded_map (shift : Z) (cipher : string) :
  decoded shift cipher = string_map (undo_char shift) cipher.
Proof.
  unfold decoded. induction cipher as [|ch rest IH]; cbn [decode string_map]; [reflexivity|].
  unfold undo_char at 1. destruct (is_lower ch); cbv zeta.
  - set (v := if is_vowel _ then _ else _).
    rewrite <- IH, (decode_text shift rest 0 v).
    destruct (decode shift rest v). reflexivity.
  - rewrite <- IH. destruct (decode shift rest 0). reflexivity.
Qed.

Lemma undo_shift_char (t : Z) (c : ascii) :
  1 <= t <= 25 -> is_upper c = false ->
  undo_char t (shift_char (Z.rem t 26) c) = c.
Proof.
  intros Ht Hu.
  assert (Hb : undo_shiftb t c = true)
    by (apply (forall_small_shifts undo_shiftb); [vm_compute; reflexivity | lia]).
  unfold undo_shiftb in Hb.
  destruct (Z.leb_spec 1 t) as [_|Hlt]; [|lia].
  rewrite Hu in Hb. apply Ascii.eqb_eq, Hb.
Qed.

Lemma shift_char_not_nul (t : Z) (c : ascii) :
  -26 < t < 26 -> code c <> 0 -> code (shift_char t c) <> 0.
Proof.
  intros Ht Hc.
  assert (Hb : keeps_nulb t c = true)
    by (apply (forall_small_shifts keeps_nulb); [vm_compute; reflexivity | exact Ht]).
  unfold keeps_nulb in Hb.
  destruct (Z.eqb_spec (code c) 0) as [|_]; [contradiction|].
  destruct (Z.eqb_spec (code (shift_char t c)) 0) as [|Hne]; [discriminate Hb | exact Hne].
Qed.

Lemma c_str_whole (n : nat) (s : string) :
  (String.length s <= n)%nat ->
  Forall (fun c => code c <> 0) (list_ascii_of_string s) ->
  c_str n s = s.
Proof.
  revert n. induction s as [|c s IH]; intros n Hlen Hs.
  - destruct n; reflexivity.
  - cbn [String.length] in Hlen. destruct n as [|n]; [lia|].
    cbn [list_ascii_of_string] in Hs. inversion Hs as [|? ? Hc Hrest]; subst.
    cbn [c_str]. destruct (Z.eqb_spec (code c) 0) as [|_]; [contradiction|].
    rewrite IH; [reflexivity | lia | exact Hrest].
Qed.

Lemma encoded_line_fits (s : Z) (phrase : string) :
  lowercase phrase -> Zlength phrase <= 199 ->
  getline 200 (transform s phrase) = transform s phrase.
Proof.
  unfold lowercase, Zlength, getline. intros Hp Hlen.
  rewrite transform_map. apply c_str_whole.
  - rewrite string_map_length. lia.
  - clear Hlen. induction phrase as [|c p IH]; cbn [string_map list_ascii_of_string] in *;
      [constructor|].
    inversion Hp as [|? ? [_ Hc] Hrest]; subst. constructor.
    + apply shift_char_not_nul; [apply rem_26_small | exact Hc].
    + apply IH. exact Hrest.
Qed.

Lemma decoded_encoded (s : Z) (phrase : string) :
  1 <= s <= 25 -> lowercase phrase ->
  decoded s (transform s phrase) = phrase.
Proof.
  unfold lowercase. intros Hs Hp.
  rewrite decoded_map, transform_map, string_map_map.
  induction phrase as [|c p IH]; cbn [string_map list_ascii_of_string] in *;
    [reflexivity|].
  inversion Hp as [|? ? [Hu _] Hrest]; subst.
  rewrite undo_shift_char by assumption. rewrite IH by exact Hrest. reflexivity.
Qed.

(** C5: the search tries the shifts 1 to 25 on the text in the buffer and
    reports a shift whose decoding has the most lowercase vowels, the lowest
    such shift, together with that decoding.  So a shift [s] whose decoding has
    strictly more vowels than every other one is the shift reported, and for
    the encoding by [s] of a phrase without capital letters the phrase itself
    is the text reported. *)
Theorem brute_force_reports_first_best (line : string) :
  let cipher := getline 200 line in
  exists bestShift : Z,
    Level2.main line = (bestShift, decoded bestShift cipher)
    /\ 1 <= bestShift <= 25
    /\ (forall t, 1 <= t <= 25 -> score t cipher <= score bestShift cipher)
    /\ (forall t, 1 <= t < bestShift -> score t cipher < score bestShift cipher)
    /\ (forall s,
          1 <= s <= 25 ->
          (forall t, 1 <= t <= 25 -> t <> s -> score t cipher < score s cipher) ->
          bestShift = s)
    /\ (forall s phrase,
          1 <= s <= 25 -> lowercase phrase -> Zlength phrase <= 199 ->
          line = transform s phrase ->
          (forall t, 1 <= t <= 25 -> t <> s -> score t line < score s line) ->
          Level2.main line = (s, phrase)).
Proof.
  intros cipher.
  destruct (search_best cipher (getline_length line))
    as (bs & bsc & Hsearch & Hbs & Hmax & Hfirst).
  assert (Hmain : Level2.main line = (bs, decoded bs cipher)).
  { unfold Level2.main. fold cipher. rewrite Hsearch. reflexivity. }
  assert (Huniq : forall s, 1 <= s <= 25 ->
            (forall t, 1 <= t <= 25 -> t <> s -> score t cipher < score s cipher) ->
            bs = s).
  { intros s Hs Hbest. destruct (Z.eq_dec bs s) as [Heq|Hne]; [exact Heq|].
    specialize (Hbest bs Hbs Hne). specialize (Hmax s Hs). lia. }
  exists bs. repeat split; try lia; try assumption.
  intros s phrase Hs Hp Hlen Hline Hbest.
  assert (Hc : cipher = line).
  { unfold cipher. rewrite Hline. apply encoded_line_fits; assumption. }
  rewrite Hmain, Hc. rewrite Hc in Huniq.
  rewrite (Huniq s Hs Hbest), Hline. rewrite decoded_encoded by assumption.
  reflexivity.
Qed.

Lemma brute_force_witness : Level2.main (transform 7 "aeiou") = (7, "aeiou"%string).
Proof.
  destruct (brute_force_reports_first_best (transform 7 "aeiou"))
    as (bs & _ & _ & _ & _ & _ & Hphrase).
  apply (Hphrase 7 "aeiou"%string).
  - lia.
  - repeat constructor; discriminate.
  - vm_compute. discriminate.
  - reflexivity.
  - intros t Ht Hne.
    assert (Hin : In t (map Z.of_nat (seq 1 25)))
      by (replace t with (Z.of_nat (Z.to_nat t)) by lia; apply in_map, in_seq; lia).
    cbn in Hin.
    repeat (destruct Hin as [<- | Hin]; [try (vm_compute; reflexivity); contradiction|]).
    contradiction.
Defined.

(** ** Binary64 runs *)

(** The literals of the program, as [lit] computes them in binary64, are the
    doubles nearest to their decimal values. *)
Lemma F64_literals :
  e = 0x1.5bf0a8b04919bp+1%float
  /\ PI = 0x1.921fb54411744p+1%float
  /\ lit 1 9 = 0x1.12e0be826d695p-30%float
  /\ lit 1 10 = 0x1.b7cdfd9d7bdbbp-34%float
  /\ lit 15 1 = 0x1.8p+0%float
  /\ lit 5 1 = 0x1p-1%float
  /\ lit 20 1 = 0x1p+1%float
  /\ lit 30000000001 10 = 0x1.8000000036f9cp+1%float
  /\ lit 31 1 = 0x1.8cccccccccccdp+1%float.
Proof. repeat split. Qed.

Lemma F64_runs :
  ln 50 (of_int 2) = Ok 0x1.62e42ff130b7cp-1%float ""
  /\ mySqrt (of_int 2) = Ok 0x1.6a09e667f3bccp+0%float ""
  /\ hasDecimal (D:=float) (lit 10000000000 0) = Fault CastOutOfRange.
Proof. repeat split; vm_compute; reflexivity. Qed.

(** [fact] on small arguments, and past the width of [long]. *)
Lemma fact_runs :
  fact 4 5 = Ok 120%Z ""
  /\ fact 19 20 = Ok 2432902008176640000%Z ""
  /\ fact 20 21 = Ok (-4249290049419214848)%Z "".
Proof. repeat split; vm_compute; reflexivity. Qed.

(** ** The claims on [power], [fact] and [mySqrt] *)

Local Open Scope Q_scope.

(** C7: [power b 0] is 1 for every base [b], zero included, in every
    arithmetic; for an exponent [p >= 0], [power b p] is the product
    [((1 * b) * b) ... * b] of [p] copies of [b], which in exact arithmetic
    is [b^p]. *)
Theorem power_repeated_product :
  (forall (D : Type) (A : Double D) (b : D), power b 0 = of_int 1)
  /\ (forall (D : Type) (A : Double D) (b : D) (p : Z),
        (0 <= p <= INT_MAX)%Z ->
        power b p = fold_left mul (repeat b (Z.to_nat p)) (of_int 1))
  /\ (forall (b : Q) (p : Z), (0 <= p <= INT_MAX)%Z -> power b p == b ^ p)
  /\ power (D:=Q) 0 0 = 1
  /\ power (D:=float) (of_int 0) 0 = of_int 1.
Proof.
  split; [|split; [|split; [|split]]].
  - intros D A b. apply power_nonpos. lia.
  - intros D A b p Hp. apply power_fold, Hp.
  - intros b p Hp. apply power_Qpower, Hp.
  - reflexivity.
  - reflexivity.
Qed.

Lemma power_witness :
  power (3 # 2) 3 = 1 * (3 # 2) * (3 # 2) * (3 # 2)
  /\ power (3 # 2) 3 == (3 # 2) ^ 3.
Proof.
  destruct power_repeated_product as (_ & Hfold & Hpow & _).
  split.
  - apply (Hfold Q QDouble (3 # 2) 3%Z). unfold INT_MAX. lia.
  - apply (Hpow (3 # 2) 3%Z). unfold INT_MAX. lia.
Defined.

(** C9: for a negative exponent the loop of [power] does not run, and the
    result is 1 whatever the base. *)
Theorem power_negative_exponent (D : Type) (A : Double D) (b : D) (p : Z) :
  (p < 0)%Z -> power b p = of_int 1.
Proof. intros Hp. apply power_nonpos. lia. Qed.

Lemma power_negative_witness : power (7 # 3) (-4) = 1.
Proof. apply (power_negative_exponent Q QDouble (7 # 3) (-4)%Z). lia. Defined.

(** C10: [fact] returns 1 on every argument that is at most 1, zero and the
    negative numbers included, without running its loop. *)
Theorem fact_at_most_one (fuel : nat) (x : Z) :
  (x <= 1)%Z -> fact fuel x = Ok 1%Z "".
Proof.
  intros Hx. unfold fact. rewrite while_done.
  - reflexivity.
  - apply Z.ltb_ge, Hx.
Qed.

Lemma fact_witness : fact 0 (-5) = Ok 1%Z "".
Proof. apply (fact_at_most_one 0 (-5)%Z). lia. Defined.

(** C2: on a negative argument [mySqrt] writes its error message and
    returns 0.  Otherwise it returns the guess that 100 rounds of
    [guess = (guess + x / guess) / 2.0] produce from [x / 2.0]: on every
    argument that is not negative in binary64, zero included, and on every
    positive argument in exact arithmetic. *)
Theorem mySqrt_hundred_rounds :
  (forall x : Q, x < 0 -> mySqrt x = Ok 0 sqrt_message)
  /\ (forall x : float,
        PrimFloat.ltb x 0 = true -> mySqrt x = Ok 0%float sqrt_message)
  /\ (forall x : float,
        PrimFloat.ltb x 0 = false ->
        mySqrt x
        = Ok (Nat.iter 100 (fun guess => (guess + x / guess) / lit 20 1)%float
                (x / lit 20 1)%float) "")
  /\ (forall x : Q,
        0 < x ->
        mySqrt x
        = Ok (Nat.iter 100 (fun guess => (guess + x / guess) / lit 20 1)
                (x / lit 20 1)) "").
Proof.
  split; [|split; [|split]].
  - intros x Hx. exact (mySqrt_negative x (proj2 (Qltb_lt x 0) Hx)).
  - intros x Hx. exact (mySqrt_negative x Hx).
  - intros x Hx. exact (mySqrt_F64_nonnegative x Hx).
  - intros x Hx. exact (mySqrt_Q_positive x Hx).
Qed.

Lemma mySqrt_witness :
  mySqrt (- (4)) = Ok 0 sqrt_message
  /\ mySqrt 2
     = Ok (Nat.iter 100 (fun guess => (guess + 2 / guess) / lit 20 1)
             (2 / lit 20 1)) "".
Proof.
  destruct mySqrt_hundred_rounds as (Hneg & _ & _ & Hpos).
  split.
  - apply (Hneg (- (4))). reflexivity.
  - apply (Hpos 2). reflexivity.
Defined.

(** C3: on input 0 the first guess of [mySqrt] is 0, and the first round of
    the loop divides by it: with the guarded division the run ends in the
    division fault, and in binary64 the quotient is NaN, which is what
    [mySqrt] returns. *)
Theorem mySqrt_zero_divides_by_zero :
  guard DivisionByZero (div (0 : Q) (lit 20 1)) = Ok (0 / lit 20 1) ""
  /\ 0 / lit 20 1 == 0
  /\ newton (0 : Q) (0 / lit 20 1) = Fault DivisionByZero
  /\ mySqrt (0 : Q) = Fault DivisionByZero
  /\ mySqrt (D:=float) (of_int 0) = Ok nan "".
Proof.
  split; [reflexivity|]. split; [reflexivity|]. split; [reflexivity|].
  split; [apply mySqrt_Q_zero; reflexivity | vm_compute; reflexivity].
Qed.

(** On the binary64 value [infinity] the first loop of [ln] never ends:
    [infinity / e] is [infinity] again. *)
Lemma ln_down_infinity (fuel : nat) :
  forall k, ln_down (D:=float) fuel infinity k = Fault OutOfFuel.
Proof.
  induction fuel as [|fuel IH]; intros k; [reflexivity|].
  unfold ln_down. rewrite while_step by reflexivity.
  cbn [div F64 guard]. rewrite !bind_ret_l.
  change (infinity / e)%float with infinity. apply IH.
Qed.

Lemma ln_infinity (fuel : nat) : ln (D:=float) fuel infinity = Fault OutOfFuel.
Proof.
  unfold ln. change (eqb infinity (of_int 0)) with false.
  change (ltb infinity (of_int 0)) with false. cbv iota.
  rewrite ln_down_infinity. reflexivity.
Qed.

(** * Further properties of the code *)

(** ** The series of [exp_] *)


Lemma series_cond_Q (eps t s : Q) (n : Z) :
  (series_cond eps (t, s, n) = true <-> eps < Qabs t)
  /\ (series_cond eps (t, s, n) = false <-> Qabs t <= eps).
Proof.
  unfold series_cond. cbn [ltb QDouble].
  rewrite Qltb_lt, Qltb_ge, abso_Qabs. split; reflexivity.
Qed.

Section RatioSeries.
Variable body : Q * Q * Z -> run (Q * Q * Z).
Variable eps : Q.
Variable tm : nat -> Q.
Variable B : nat.
Hypothesis Hbody :
  forall (t s : Q) (n : nat),
    (n < B)%nat -> t == tm n ->
    exists t' : Q,
      body (t, s, (Z.of_nat n + 1)%Z) = Ok (t', s + t', (Z.of_nat n + 1 + 1)%Z) ""
      /\ t' == tm (Datatypes.S n).
Hypothesis Hsmall : Qabs (tm B) <= eps.

End RatioSeries.

Lemma Qabs_Qpower_le (z M : Q) (n : nat) :
  Qabs z <= M -> Qabs (z ^ Z.of_nat n) <= M ^ Z.of_nat n.
Proof.
  intros Hz. induction n as [|n IH].
  - cbn. discriminate.
  - rewrite !Qpower_succ, Qabs_Qmult.
    apply Qmult_le_compat_nonneg; split;
      [apply Qabs_nonneg | exact IH | apply Qabs_nonneg | exact Hz].
Qed.

Lemma inject_Z_nonzero (z : Z) : (z <> 0)%Z -> ~ inject_Z z == 0.
Proof. intros Hz H. unfold Qeq in H. cbn in H. lia. Qed.

(** ** The sign of [ln] *)

#[export] Instance taylor_term_wd : Proper (Qeq ==> eq ==> Qeq) taylor_term.
Proof. intros z z' Hz n n' <-. unfold taylor_term. rewrite Hz. reflexivity. Qed.

Lemma Qabs_minus_one_power (k : nat) : Qabs ((- (1)) ^ Z.of_nat k) <= 1.
Proof.
  apply Qle_trans with (1 ^ Z.of_nat k).
  - apply Qabs_Qpower_le. discriminate.
  - rewrite Qpower_1. apply Qle_refl.
Qed.

Lemma taylor_term_half (z : Q) (n : nat) :
  Qabs z <= 1 # 2 -> (1 <= n)%nat ->
  Qabs (taylor_term z (Z.of_nat n)) <= (1 # 2) ^ Z.of_nat n.
Proof.
  intros Hz Hn. unfold taylor_term, Qdiv. rewrite !Qabs_Qmult.
  replace (Z.of_nat n + 1)%Z with (Z.of_nat (Datatypes.S n)) by lia.
  assert (H1 := Qabs_minus_one_power (Datatypes.S n)).
  assert (H2 := Qabs_Qpower_half z n Hz).
  assert (Hq : 1 <= Qabs (inject_Z (Z.of_nat n))).
  { apply Qabs_ge. unfold Qle. cbn. lia. }
  assert (H3 : Qabs (/ inject_Z (Z.of_nat n)) <= 1).
  { rewrite Qabs_Qinv. apply Qle_shift_inv_r.
    - apply Qlt_le_trans with 1; [reflexivity | exact Hq].
    - rewrite Qmult_1_l. exact Hq. }
  setoid_replace ((1 # 2) ^ Z.of_nat n) with (1 * (1 # 2) ^ Z.of_nat n * 1) by ring.
  apply Qmult_le_compat_nonneg; split.
  - apply Qmult_le_0_compat; apply Qabs_nonneg.
  - apply Qmult_le_compat_nonneg; split;
      [apply Qabs_nonneg | exact H1 | apply Qabs_nonneg | exact H2].
  - apply Qabs_nonneg.
  - exact H3.
Qed.

Lemma taylor_sum_below_one (z : Q) (N : nat) :
  Qabs z <= 1 # 2 -> Qabs (taylor_sum z N) <= 1 - (1 # 2) ^ Z.of_nat N.
Proof.
  intros Hz. induction N as [|N IH].
  - cbn. discriminate.
  - cbn [taylor_sum].
    apply Qle_trans with (1 := Qabs_triangle _ _).
    pose proof (taylor_term_half z (Datatypes.S N) Hz ltac:(lia)) as Ht.
    rewrite Qpower_succ in *. lra.
Qed.

Lemma ln_Q_between (x : Q) (n1 n2 fuel : nat) :
  0 < x -> rounds_suffice x n1 n2 ->
  (n1 <= fuel)%nat -> (n2 <= fuel)%nat -> (28 <= fuel)%nat ->
  (Z.of_nat n1 <= INT_MAX)%Z -> (Z.of_nat n2 <= INT_MAX)%Z ->
  exists (k : Z) (v r : Q),
    ln fuel x = Ok v ""
    /\ inject_Z k - 1 < v < inject_Z k + 1
    /\ x == r * eQ ^ k /\ 1 # 2 <= r <= 3 # 2
    /\ (3 # 2 < x -> (1 <= k)%Z)
    /\ (x < 1 # 2 -> (k <= -1)%Z)
    /\ (x == 1 -> v == 0).
Proof.
  intros Hpos Hn Hf1 Hf2 Hf3 Hi1 Hi2.
  destruct (ln_Q_run x n1 n2 fuel Hpos Hn Hf1 Hf2 Hf3)
    as (j1 & j2 & N & r1 & r & T & Hj1 & Hj2 & Hc).
  destruct Hc as (_ & _ & _ & Hln & Hex & Hall1 & Hall2 & Hr & Hx & HN & HT & Hstop & Hbefore).
  rewrite int_small in Hln by (unfold INT_MIN, INT_MAX in *; lia).
  assert (Hz : Qabs (r - 1) <= 1 # 2) by (apply Qabs_Qle_condition; split; lra).
  assert (HTabs : Qabs T < 1).
  { rewrite HT. apply Qle_lt_trans with (1 := taylor_sum_below_one _ N Hz).
    assert (0 < (1 # 2) ^ Z.of_nat N) by (apply Qpower_0_lt; reflexivity). lra. }
  apply Qabs_Qlt_condition in HTabs.
  exists (Z.of_nat j1 - Z.of_nat j2)%Z, (inject_Z (Z.of_nat j1 - Z.of_nat j2) + T), r.
  split; [exact Hln|]. split; [lra|]. split; [exact Hx|]. split; [exact Hr|].
  assert (Hj1z : j1 = 0%nat -> x <= 3 # 2).
  { intros ->. destruct j2 as [|j2].
    - cbn in Hx. lra.
    - specialize (Hall2 0%nat ltac:(lia)). cbn in Hall2. lra. }
  assert (Hj2z : j2 = 0%nat -> 1 # 2 <= x).
  { intros ->. destruct j1 as [|j1].
    - cbn in Hx. lra.
    - specialize (Hall1 0%nat ltac:(lia)). cbn in Hall1.
      unfold Qdiv in Hall1. rewrite Qmult_1_r in Hall1. lra. }
  split; [|split].
  - intros Hbig. destruct j1 as [|j1]; [specialize (Hj1z eq_refl); lra|].
    destruct Hex as [Hex|Hex]; [discriminate Hex | lia].
  - intros Hsmall. destruct j2 as [|j2]; [specialize (Hj2z eq_refl); lra|].
    destruct Hex as [Hex|Hex]; [lia | discriminate Hex].
  - intros H1.
    assert (j1 = 0%nat).
    { destruct j1 as [|j1]; [reflexivity|].
      specialize (Hall1 0%nat ltac:(lia)). cbn in Hall1.
      unfold Qdiv in Hall1. rewrite Qmult_1_r in Hall1. lra. }
    assert (j2 = 0%nat).
    { destruct j2 as [|j2]; [reflexivity|].
      specialize (Hall2 0%nat ltac:(lia)). cbn in Hall2. lra. }
    subst j1 j2. cbn in Hx.
    assert (Hr0 : r - 1 == 0) by lra.
    assert (Ht1 : taylor_term (r - 1) 1 == 0) by (rewrite Hr0; reflexivity).
    assert (N = 1%nat).
    { destruct (Nat.eq_dec N 1) as [|Hne]; [assumption|].
      specialize (Hbefore 1%nat ltac:(lia)). cbn [Z.of_nat Pos.of_succ_nat] in Hbefore.
      rewrite Ht1 in Hbefore. discriminate Hbefore. }
    subst N. rewrite HT. cbn [taylor_sum Z.of_nat Pos.of_succ_nat].
    rewrite Ht1. reflexivity.
Qed.

(** X2: on the range of [double], the value of [ln] lies within 1 of the
    number [k] of net divisions by [e], so it is positive above 1.5 and
    negative below 0.5; and [ln 1] is 0. *)
Theorem ln_sign (x : Q) (fuel : nat) :
  double_range x -> (1073 <= fuel)%nat ->
  exists (k : Z) (v r : Q),
    ln fuel x = Ok v ""
    /\ inject_Z k - 1 < v < inject_Z k + 1
    /\ x == r * eQ ^ k /\ 1 # 2 <= r <= 3 # 2
    /\ (3 # 2 < x -> 0 < v)
    /\ (x < 1 # 2 -> v < 0)
    /\ (x == 1 -> v == 0).
Proof.
  intros Hx Hfuel.
  destruct (ln_Q_between x 1024 1073 fuel (double_range_pos x Hx) (rounds_of_double x Hx))
    as (k & v & r & Hln & Hv & Hxr & Hr & Hbig & Hsmall & Hone);
    try lia; try (unfold INT_MAX; lia).
  exists k, v, r. repeat split; try assumption; try apply Hv; try apply Hr.
  - intros H. specialize (Hbig H).
    assert (1 <= inject_Z k) by (unfold Qle; cbn; lia).
    lra.
  - intros H. specialize (Hsmall H).
    assert (inject_Z k <= - (1)) by (unfold Qle; cbn; lia).
    lra.
Qed.

Lemma ln_sign_witness :
  exists v : Q, ln 1073 (7 # 1) = Ok v "" /\ 0 < v.
Proof.
  assert (Hx : double_range (7 # 1)) by (split; apply Qle_bool_iff; vm_compute; reflexivity).
  destruct (ln_sign (7 # 1) 1073 Hx (le_n _)) as (k & v & r & Hln & _ & _ & _ & Hpos & _).
  exists v. split; [exact Hln | apply Hpos; reflexivity].
Defined.

(** ** [log10_], [deciPow] and the power option of [main] *)

Lemma leb_Q (x y : Q) : leb x y = true <-> x <= y.
Proof.
  unfold leb. cbn [ltb eqb QDouble]. rewrite orb_true_iff, Qltb_lt, Qeq_bool_iff.
  split.
  - intros [H|H]; [apply Qlt_le_weak, H | rewrite H; apply Qle_refl].
  - intros H. destruct (Qlt_le_dec x y) as [Hlt|Hge]; [left; exact Hlt | right].
    apply Qle_antisym; assumption.
Qed.

Lemma leb_Q_false (x y : Q) : leb x y = false <-> y < x.
Proof.
  rewrite <- not_true_iff_false, leb_Q. split; [apply Qnot_le_lt | apply Qlt_not_le].
Qed.

Lemma leb_zero_Q (x : Q) :
  (x <= 0 -> leb x (of_int 0) = true) /\ (0 < x -> leb x (of_int 0) = false).
Proof.
  split; intros H; [exact (proj2 (leb_Q x 0) H) | exact (proj2 (leb_Q_false x 0) H)].
Qed.

Lemma exp_zero (x : Q) (fuel : nat) :
  x == 0 -> exists v : Q, exp_ fuel x = Ok v "" /\ v == 1.
Proof.
  intros Hx. unfold exp_, do_while, exp_body.
  rewrite Qdiv_guarded by discriminate. cbn [guard]. rewrite !bind_ret_l.
  rewrite while_done.
  - rewrite bind_ret_l. eexists. split; [reflexivity|].
    cbn [add mul of_int QDouble]. rewrite Hx. reflexivity.
  - apply series_cond_Q. cbn [mul of_int QDouble]. rewrite Hx. discriminate.
Qed.

Lemma ln_one (a : Q) (fuel : nat) :
  a == 1 -> exists l : Q, ln fuel a = Ok l "" /\ l == 0.
Proof.
  intros Ha.
  assert (Hpos : 0 < a) by (rewrite Ha; reflexivity).
  assert (Hdown : ln_down fuel a 0 = Ok (a, 0%Z) "").
  { unfold ln_down. apply while_done. apply Qltb_ge.
    change (lit 15 1) with (15 # 10). lra. }
  assert (Hup : ln_up fuel a 0 = Ok (a, 0%Z) "").
  { unfold ln_up. apply while_done. apply Qltb_ge.
    change (lit 5 1) with (5 # 10). lra. }
  destruct (lnNear1_body_Q (a - 1) (of_int 0) (of_int 0) 1 ltac:(lia))
    as (y & Hbody & Hy).
  assert (Hy0 : y == 0).
  { rewrite Hy. assert (Hz : a - 1 == 0) by lra. rewrite Hz. reflexivity. }
  assert (Hser : lnNear1 fuel a = Ok (of_int 0 + y) "").
  { unfold lnNear1, do_while. change (sub a (of_int 1)) with (a - 1).
    change (Z.of_nat 1) with 1%Z in Hbody.
    rewrite (bind_Ok_quiet _ _ _ Hbody). rewrite while_done; [reflexivity|].
    apply lnNear1_cond_Q. rewrite Hy0. discriminate. }
  eexists. split.
  - exact (ln_Q_composes _ _ _ _ _ _ _ Hpos Hdown Hup Hser).
  - cbn [of_int QDouble]. rewrite Hy0. reflexivity.
Qed.

Lemma ln_ten (fuel : nat) :
  (28 <= fuel)%nat -> exists b : Q, ln fuel (of_int 10) = Ok b "" /\ 0 < b.
Proof.
  intros Hfuel.
  destruct (ln_Q_between (of_int 10) 3 0 fuel) as (k & v & r & Hln & Hv & _ & _ & Hbig & _);
    try lia; try (unfold INT_MAX; lia); try reflexivity.
  { split; vm_compute; discriminate. }
  exists v. split; [exact Hln|].
  specialize (Hbig eq_refl).
  assert (1 <= inject_Z k) by (unfold Qle; cbn; lia). lra.
Qed.

(** X3: [log10_] never divides by zero, because [ln(10)] is positive: whenever
    [ln(x)] returns, [log10_(x)] returns the quotient, with the output of
    [ln(x)].  So on zero and on negative numbers it returns 0 with the
    message of [ln], and on 10 it returns 1. *)
Theorem log10_quotient (x : Q) (fuel : nat) :
  (28 <= fuel)%nat ->
  (forall (a : Q) (out : string),
      ln fuel x = Ok a out ->
      exists b : Q,
        ln fuel (of_int 10) = Ok b "" /\ 0 < b
        /\ log10_ fuel x = Ok (a / b) out)
  /\ (x == 0 -> exists v, log10_ fuel x = Ok v "NOT DEFINED" /\ v == 0)
  /\ (x < 0 -> exists v, log10_ fuel x = Ok v "Invalid Input" /\ v == 0)
  /\ (exists v, log10_ fuel (of_int 10) = Ok v "" /\ v == 1).
Proof.
  intros Hfuel. destruct (ln_ten fuel Hfuel) as (b & Hb & Hbpos).
  assert (Hq : forall (y a : Q) (out : string),
             ln fuel y = Ok a out -> log10_ fuel y = Ok (a / b) out).
  { intros y a out Ha. unfold log10_. rewrite Ha, Hb. cbn [bind].
    rewrite Qdiv_guarded by (intros H0; rewrite H0 in Hbpos; discriminate Hbpos).
    cbn [guard ret]. rewrite !append_empty_r. reflexivity. }
  split; [|split; [|split]].
  - intros a out Ha. exists b. repeat split; try assumption. apply Hq, Ha.
  - intros H0. eexists. split.
    + apply Hq. exact (ln_zero fuel x (proj2 (Qeq_bool_iff x 0) H0)).
    + cbn [of_int QDouble]. unfold Qdiv. ring.
  - intros Hneg. eexists. split.
    + apply Hq. refine (ln_negative fuel x _ (proj2 (Qltb_lt x 0) Hneg)).
      apply Qeq_bool_false. intros H0. rewrite H0 in Hneg. discriminate Hneg.
    + cbn [of_int QDouble]. unfold Qdiv. ring.
  - eexists. split; [apply Hq, Hb|].
    field. intros H0. rewrite H0 in Hbpos. discriminate Hbpos.
Qed.

Lemma log10_witness :
  exists v : Q, log10_ 28 (- (2)) = Ok v "Invalid Input" /\ v == 0.
Proof.
  destruct (log10_quotient (- (2)) 28 (le_n _)) as (_ & _ & Hneg & _).
  apply Hneg. reflexivity.
Defined.

(** X4: [deciPow] refuses every base that is not positive, with its own
    message and the value 0, and without calling [ln]; the base 1 gives 1 for
    every exponent, and so does the exponent 0 for every base on which [ln]
    returns. *)
Theorem deciPow_edges (a b : Q) (fuel : nat) :
  (a <= 0 -> deciPow fuel a b = Ok 0 power_message)
  /\ (a == 1 -> exists v, deciPow fuel a b = Ok v "" /\ v == 1)
  /\ (0 < a -> b == 0 ->
      forall l : Q, ln fuel a = Ok l "" ->
      exists v, deciPow fuel a b = Ok v "" /\ v == 1).
Proof.
  split; [|split].
  - intros Ha. unfold deciPow. rewrite (proj1 (leb_zero_Q a) Ha). reflexivity.
  - intros Ha. unfold deciPow.
    rewrite (proj2 (leb_zero_Q a)) by (rewrite Ha; reflexivity).
    destruct (ln_one a fuel Ha) as (l & Hl & Hl0).
    rewrite (bind_Ok_quiet _ _ _ Hl).
    apply exp_zero. cbn [mul QDouble]. rewrite Hl0. ring.
  - intros Ha Hb l Hl. unfold deciPow.
    rewrite (proj2 (leb_zero_Q a)) by exact Ha.
    rewrite (bind_Ok_quiet _ _ _ Hl).
    apply exp_zero. cbn [mul QDouble]. rewrite Hb. ring.
Qed.

Lemma deciPow_witness :
  deciPow 0 (- (8)) (1 # 3) = Ok 0 power_message
  /\ exists v, deciPow 0 (2 # 2) (7 # 2) = Ok v "" /\ v == 1.
Proof.
  split.
  - apply (deciPow_edges (- (8)) (1 # 3) 0). discriminate.
  - apply (deciPow_edges (2 # 2) (7 # 2) 0). reflexivity.
Defined.

(** ** [normalize] *)

Lemma two_pi_bounds : 6 < two_pi /\ two_pi < 7.
Proof. split; reflexivity. Qed.

Lemma minus_two_pi : mul (of_int (-2)) PI == - two_pi.
Proof. reflexivity. Qed.

(** ** [normalize] in binary64 *)

(** X7: in binary64, a value above [2 PI] that the subtraction of [2 PI]
    leaves as it is, like 1e17, or one below [-2 PI] that the addition
    leaves as it is, makes the loop of [normalize] run for ever, and with it
    [sin_], [cos_] and [tan_]. *)
Theorem normalize_absorbed (x : float) (fuel : nat) :
  (PrimFloat.ltb two_pi_f x = true /\ PrimFloat.sub x two_pi_f = x)
  \/ (PrimFloat.ltb two_pi_f x = false
      /\ PrimFloat.ltb x (mul (of_int (-2)) PI) = true
      /\ PrimFloat.add x two_pi_f = x) ->
  normalize fuel x = Fault OutOfFuel
  /\ sin_ fuel x = Fault OutOfFuel
  /\ cos_ fuel x = Fault OutOfFuel
  /\ tan_ fuel x = Fault OutOfFuel.
Proof.
  intros Hx.
  assert (Hn : normalize fuel x = Fault OutOfFuel).
  { unfold normalize. fold two_pi_f. destruct Hx as [[Hgt Hsub] | (Hle & Hlt & Hadd)].
    - replace (while fuel (fun x0 : float => ltb two_pi_f x0)
                 (fun x0 : float => ret (sub x0 two_pi_f)) x)
        with (@Fault float OutOfFuel); [reflexivity|].
      symmetry. induction fuel as [|fuel IH].
      + cbn [while]. cbn [ltb F64]. rewrite Hgt. reflexivity.
      + rewrite while_step by exact Hgt. rewrite bind_ret_l.
        cbn [sub F64]. rewrite Hsub. exact IH.
    - rewrite while_done by exact Hle. rewrite bind_ret_l.
      induction fuel as [|fuel IH].
      + cbn [while]. cbn [ltb F64]. rewrite Hlt. reflexivity.
      + rewrite while_step by exact Hlt. rewrite bind_ret_l.
        cbn [add F64]. rewrite Hadd. exact IH. }
  split; [exact Hn|].
  unfold sin_, cos_, tan_. rewrite Hn. repeat split.
Qed.

Lemma normalize_absorbed_witness :
  sin_ (D:=float) 100 (float_of_Z (10 ^ 17)) = Fault OutOfFuel
  /\ normalize (D:=float) 100 (float_of_Z (- 10 ^ 17)) = Fault OutOfFuel.
Proof.
  split.
  - apply (normalize_absorbed (float_of_Z (10 ^ 17)) 100).
    left. split; vm_compute; reflexivity.
  - apply (normalize_absorbed (float_of_Z (- 10 ^ 17)) 100).
    right. repeat split; vm_compute; reflexivity.
Defined.

(** ** [sin_], [cos_] and [tan_] *)


Ltac int_range := unfold INT_MIN, INT_MAX in *; lia.

(** ** [arcsin], [arccos] and [arctan] *)

Lemma arcsin_body_run (x t s : Q) (m : Z) :
  (1 <= m <= 23170)%Z ->
  arcsin_body x (t, s, m)
  = ret (t * arcsin_ratio x m, s + t * arcsin_ratio x m, (m + 1)%Z).
Proof.
  intros Hm. unfold arcsin_body.
  rewrite (int_small (2 * m)) by int_range.
  rewrite (int_small (2 * m - 1)) by int_range.
  rewrite (int_small (2 * m + 1)) by int_range.
  rewrite (int_small (2 * m * (2 * m + 1))) by (unfold INT_MIN, INT_MAX; nia).
  rewrite (int_small (m + 1)) by int_range.
  change (of_int (2 * m * (2 * m + 1))) with (inject_Z (2 * m * (2 * m + 1))).
  rewrite Qdiv_guarded by (apply inject_Z_nonzero; nia).
  reflexivity.
Qed.

Lemma arctan_body_run (x t s : Q) (m : Z) :
  (1 <= m < 2 ^ 30)%Z ->
  arctan_body x (t, s, m)
  = ret (t * arctan_ratio x m, s + t * arctan_ratio x m, (m + 1)%Z).
Proof.
  intros Hm. unfold arctan_body.
  rewrite (int_small (2 * m)) by int_range.
  rewrite (int_small (2 * m - 1)) by int_range.
  rewrite (int_small (2 * m + 1)) by int_range.
  rewrite (int_small (m + 1)) by int_range.
  change (of_int (2 * m + 1)) with (inject_Z (2 * m + 1)).
  rewrite Qdiv_guarded by (apply inject_Z_nonzero; lia).
  reflexivity.
Qed.

Lemma inject_Z_ge_1 (z : Z) : (1 <= z)%Z -> 1 <= inject_Z z.
Proof. intros Hz. unfold Qle. cbn. lia. Qed.

Lemma inject_Z_le (a b : Z) : (a <= b)%Z -> inject_Z a <= inject_Z b.
Proof. intros H. rewrite <- Zle_Qle. exact H. Qed.

Lemma arcsin_ratio_grows (x t : Q) (m : Z) :
  x * x == 1 -> (1 <= m)%Z ->
  1 <= Qabs t * inject_Z ((2 * m - 1) * (2 * m - 1)) ->
  1 <= Qabs (t * arcsin_ratio x m) * inject_Z ((2 * (m + 1) - 1) * (2 * (m + 1) - 1)).
Proof.
  intros Hx Hm Ht. unfold arcsin_ratio. rewrite Hx.
  replace (2 * (m + 1) - 1)%Z with (2 * m + 1)%Z by lia.
  rewrite (inject_Z_mult (2 * m - 1) (2 * m - 1)) in Ht.
  rewrite (inject_Z_mult (2 * m) (2 * m + 1)), (inject_Z_mult (2 * m + 1) (2 * m + 1)).
  assert (Ho : 1 <= inject_Z (2 * m - 1)) by (apply inject_Z_ge_1; lia).
  assert (He : 1 <= inject_Z (2 * m)) by (apply inject_Z_ge_1; lia).
  assert (Hp : inject_Z (2 * m + 1) == inject_Z (2 * m) + 1)
    by (rewrite inject_Z_plus; reflexivity).
  revert Ht Ho He Hp.
  generalize (inject_Z (2 * m - 1)) (inject_Z (2 * m)) (inject_Z (2 * m + 1)).
  intros o e p Ht Ho He Hp.
  rewrite Qabs_Qmult.
  assert (Hr : Qabs (1 * o * o / (e * p)) == o * o / (e * p)).
  { setoid_replace (1 * o * o / (e * p)) with (o * o / (e * p)) by (field; split; lra).
    apply Qabs_pos. apply Qle_shift_div_l; nra. }
  rewrite Hr.
  setoid_replace (Qabs t * (o * o / (e * p)) * (p * p))
    with (Qabs t * (o * o) * (p / e)) by (field; split; lra).
  apply Qmult_le_1_compat; [exact Ht|].
  apply Qle_shift_div_l; lra.
Qed.

Lemma arctan_ratio_grows (x t : Q) (m : Z) :
  x * x == 1 -> (1 <= m)%Z ->
  1 <= Qabs t * inject_Z (2 * m - 1) ->
  1 <= Qabs (t * arctan_ratio x m) * inject_Z (2 * (m + 1) - 1).
Proof.
  intros Hx Hm Ht. unfold arctan_ratio. rewrite Hx.
  replace (2 * (m + 1) - 1)%Z with (2 * m + 1)%Z by lia.
  assert (Ho : 1 <= inject_Z (2 * m - 1)) by (apply inject_Z_ge_1; lia).
  assert (Hp : 1 <= inject_Z (2 * m + 1)) by (apply inject_Z_ge_1; lia).
  revert Ht Ho Hp.
  generalize (inject_Z (2 * m - 1)) (inject_Z (2 * m + 1)).
  intros o p Ht Ho Hp.
  rewrite Qabs_Qmult.
  assert (Hr : Qabs (- (1) * o / p) == o / p).
  { setoid_replace (- (1) * o / p) with (- (o / p)) by (field; lra).
    rewrite Qabs_opp. apply Qabs_pos. apply Qle_shift_div_l; lra. }
  rewrite Hr.
  setoid_replace (Qabs t * (o / p) * p) with (Qabs t * o) by (field; lra).
  exact Ht.
Qed.

Lemma arcsin_loop_stuck (x : Q) (fuel : nat) :
  x * x == 1 ->
  forall (m : Z) (t s : Q),
    (1 <= m)%Z -> (m + Z.of_nat fuel <= 23171)%Z ->
    1 <= Qabs t * inject_Z ((2 * m - 1) * (2 * m - 1)) ->
    while fuel (series_cond (lit 1 12)) (arcsin_body x) (t, s, m) = Fault OutOfFuel.
Proof.
  intros Hx. induction fuel as [|fuel IH]; intros m t s Hm Hend Ht.
  - assert (Hc : series_cond (lit 1 12) (t, s, m) = true).
    { apply series_cond_Q. fold eps12.
      assert (Hd : inject_Z ((2 * m - 1) * (2 * m - 1)) <= inject_Z (46341 * 46341))
        by (apply inject_Z_le; nia).
      assert (Hd0 : 1 <= inject_Z ((2 * m - 1) * (2 * m - 1)))
        by (apply inject_Z_ge_1; nia).
      assert (He : eps12 * inject_Z (46341 * 46341) < 1) by reflexivity.
      revert Ht Hd Hd0 He.
      generalize (inject_Z ((2 * m - 1) * (2 * m - 1))) (inject_Z (46341 * 46341)) (Qabs t).
      intros d D a Ht Hd Hd0 He.
      destruct (Qlt_le_dec eps12 a) as [H|H]; [exact H|]. exfalso.
      assert (0 < eps12) by reflexivity. nra. }
    cbn [while]. rewrite Hc. reflexivity.
  - assert (Hc : series_cond (lit 1 12) (t, s, m) = true).
    { apply series_cond_Q. fold eps12.
      assert (Hd : inject_Z ((2 * m - 1) * (2 * m - 1)) <= inject_Z (46341 * 46341))
        by (apply inject_Z_le; nia).
      assert (Hd0 : 1 <= inject_Z ((2 * m - 1) * (2 * m - 1)))
        by (apply inject_Z_ge_1; nia).
      assert (He : eps12 * inject_Z (46341 * 46341) < 1) by reflexivity.
      revert Ht Hd Hd0 He.
      generalize (inject_Z ((2 * m - 1) * (2 * m - 1))) (inject_Z (46341 * 46341)) (Qabs t).
      intros d D a Ht Hd Hd0 He.
      destruct (Qlt_le_dec eps12 a) as [H|H]; [exact H|]. exfalso.
      assert (0 < eps12) by reflexivity. nra. }
    rewrite while_step by exact Hc.
    rewrite arcsin_body_run by lia. rewrite bind_ret_l.
    apply IH; [lia | lia |].
    apply arcsin_ratio_grows; assumption.
Qed.

Lemma arctan_loop_stuck (x : Q) (fuel : nat) :
  x * x == 1 ->
  forall (m : Z) (t s : Q),
    (1 <= m)%Z -> (m + Z.of_nat fuel <= 2 ^ 30)%Z ->
    1 <= Qabs t * inject_Z (2 * m - 1) ->
    while fuel (series_cond (lit 1 12)) (arctan_body x) (t, s, m) = Fault OutOfFuel.
Proof.
  intros Hx.
  assert (Hcond : forall (m : Z) (t s : Q),
             (1 <= m <= 2 ^ 30)%Z -> 1 <= Qabs t * inject_Z (2 * m - 1) ->
             series_cond (lit 1 12) (t, s, m) = true).
  { intros m t s Hm Ht. apply series_cond_Q. fold eps12.
    assert (Hd : inject_Z (2 * m - 1) <= inject_Z (2 ^ 31)) by (apply inject_Z_le; lia).
    assert (Hd0 : 1 <= inject_Z (2 * m - 1)) by (apply inject_Z_ge_1; lia).
    assert (He : eps12 * inject_Z (2 ^ 31) < 1) by reflexivity.
    revert Ht Hd Hd0 He.
    generalize (inject_Z (2 * m - 1)) (inject_Z (2 ^ 31)) (Qabs t).
    intros d D a Ht Hd Hd0 He.
    destruct (Qlt_le_dec eps12 a) as [H|H]; [exact H|]. exfalso.
    assert (0 < eps12) by reflexivity. nra. }
  induction fuel as [|fuel IH]; intros m t s Hm Hend Ht.
  - cbn [while]. rewrite Hcond by (assumption || lia). reflexivity.
  - rewrite while_step by (apply Hcond; [lia | assumption]).
    rewrite arctan_body_run by lia. rewrite bind_ret_l.
    apply IH; [lia | lia |].
    apply arctan_ratio_grows; assumption.
Qed.

Lemma unit_square (x : Q) : x == 1 \/ x == - (1) -> x * x == 1 /\ Qabs x == 1.
Proof. intros [H|H]; rewrite H; split; reflexivity. Qed.

Lemma domain_test_Q (x : Q) :
  (x < - (1) \/ 1 < x -> ltb x (of_int (-1)) || ltb (of_int 1) x = true)
  /\ (- (1) <= x <= 1 -> ltb x (of_int (-1)) || ltb (of_int 1) x = false).
Proof.
  split.
  - intros [H|H]; apply orb_true_iff; [left | right]; apply Qltb_lt; exact H.
  - intros [H1 H2]. apply orb_false_iff. split; apply Qltb_ge; assumption.
Qed.

(** X11: outside [[-1, 1]], [arcsin] and [arccos] write their own message and
    return 0, and [arccos] does not call [arcsin]. *)
Theorem arcsin_arccos_domain (x : Q) (fuel : nat) :
  x < - (1) \/ 1 < x ->
  arcsin fuel x = Ok 0 arcsin_message /\ arccos fuel x = Ok 0 arccos_message.
Proof.
  intros Hx. unfold arcsin, arccos.
  rewrite (proj1 (domain_test_Q x) Hx). split; reflexivity.
Qed.

Lemma arcsin_domain_witness :
  arcsin 0 (3 # 2) = Ok 0 arcsin_message /\ arccos 0 (3 # 2) = Ok 0 arccos_message.
Proof. apply (arcsin_arccos_domain (3 # 2) 0). right. reflexivity. Defined.

(** X12: on 1 and on -1 the loop of [arcsin] is still running after 23170
    rounds, every term being above [1e-12]; in the next round the product
    [(2*n)*(2*n+1)] does not fit an [int].  [arccos] inherits it. *)
Theorem arcsin_unit_overflows (x : Q) (fuel : nat) :
  x == 1 \/ x == - (1) -> (Z.of_nat fuel <= 23170)%Z ->
  arcsin fuel x = Fault OutOfFuel
  /\ arccos fuel x = Fault OutOfFuel
  /\ (INT_MAX < 2 * 23171 * (2 * 23171 + 1))%Z.
Proof.
  intros Hx Hfuel. destruct (unit_square x Hx) as [Hsq Habs].
  assert (Hrun : arcsin fuel x = Fault OutOfFuel).
  { unfold arcsin. rewrite (proj2 (domain_test_Q x)) by (destruct Hx as [H|H]; rewrite H; split; discriminate).
    rewrite arcsin_loop_stuck; [reflexivity | exact Hsq | lia | lia |].
    rewrite Habs. discriminate. }
  split; [exact Hrun|]. split; [|reflexivity].
  unfold arccos. rewrite (proj2 (domain_test_Q x)) by (destruct Hx as [H|H]; rewrite H; split; discriminate).
  rewrite Qdiv_guarded by discriminate. cbn [guard]. rewrite bind_ret_l, Hrun. reflexivity.
Qed.

Lemma arcsin_unit_witness : arcsin 50 (- (1)) = Fault OutOfFuel.
Proof.
  apply (arcsin_unit_overflows (- (1)) 50); [right; reflexivity | lia].
Defined.

(** X13: on 1 and on -1 the loop of [arctan] is still running after
    [2^30 - 1] rounds, the term of round [n] being [1 / (2n+1)]; in the next
    round [2*n] does not fit an [int]. *)
Theorem arctan_unit_overflows (x : Q) (depth fuel : nat) :
  x == 1 \/ x == - (1) -> (Z.of_nat fuel < 2 ^ 30)%Z ->
  arctan (Datatypes.S depth) fuel x = Fault OutOfFuel
  /\ (INT_MAX < 2 * 2 ^ 30)%Z.
Proof.
  intros Hx Hfuel. destruct (unit_square x Hx) as [Hsq Habs].
  split; [|reflexivity]. cbn [arctan].
  replace (ltb (of_int 1) x) with false
    by (symmetry; apply Qltb_ge; destruct Hx as [H|H]; rewrite H; discriminate).
  replace (ltb x (of_int (-1))) with false
    by (symmetry; apply Qltb_ge; destruct Hx as [H|H]; rewrite H; discriminate).
  rewrite arctan_loop_stuck; [reflexivity | exact Hsq | lia | lia |].
  rewrite Habs. discriminate.
Qed.

Lemma arctan_unit_witness : arctan 1 1000 1 = Fault OutOfFuel.
Proof.
  apply (arctan_unit_overflows 1 0 1000); [left; reflexivity | lia].
Defined.

(** ** The series of [arctan] and [arcsin] *)














Lemma arctan_above (x : Q) (depth fuel : nat) :
  ltb (of_int 1) x = true ->
  arctan (Datatypes.S depth) fuel x
  = bind (guard DivisionByZero (div PI (of_int 2))) (fun h =>
      bind (guard DivisionByZero (div (of_int 1) x)) (fun y =>
        bind (arctan depth fuel y) (fun a => ret (sub h a)))).
Proof. intros H. cbn [arctan]. rewrite H. reflexivity. Qed.

Lemma arctan_below (x : Q) (depth fuel : nat) :
  ltb (of_int 1) x = false -> ltb x (of_int (-1)) = true ->
  arctan (Datatypes.S depth) fuel x
  = bind (guard DivisionByZero (div (neg PI) (of_int 2))) (fun h =>
      bind (guard DivisionByZero (div (of_int 1) x)) (fun y =>
        bind (arctan depth fuel y) (fun a => ret (sub h a)))).
Proof. intros H1 H2. cbn [arctan]. rewrite H1, H2. reflexivity. Qed.

(** X16: [arctan] calls itself at most once: on [[-1, 1]] it runs its loop,
    and above 1 or below -1 it returns [PI/2] or [-PI/2] minus its value on
    [1/x], which lies in [[-1, 1]]. *)
Theorem arctan_nests_once (x : Q) (depth fuel : nat) :
  (- (1) <= x <= 1 -> arctan (Datatypes.S depth) fuel x = arctan 1 fuel x)
  /\ (1 < x ->
      - (1) <= 1 / x <= 1
      /\ forall a : Q,
          arctan 1 fuel (1 / x) = Ok a "" ->
          arctan (Datatypes.S (Datatypes.S depth)) fuel x
          = Ok (PI / inject_Z 2 - a) "")
  /\ (x < - (1) ->
      - (1) <= 1 / x <= 1
      /\ forall a : Q,
          arctan 1 fuel (1 / x) = Ok a "" ->
          arctan (Datatypes.S (Datatypes.S depth)) fuel x
          = Ok (- PI / inject_Z 2 - a) "").
Proof.
  assert (Hin : forall (y : Q) (d : nat),
             - (1) <= y <= 1 -> arctan (Datatypes.S d) fuel y = arctan 1 fuel y).
  { intros y d [Hlo Hhi]. cbn [arctan].
    replace (ltb (of_int 1) y) with false by (symmetry; apply Qltb_ge; exact Hhi).
    replace (ltb y (of_int (-1))) with false by (symmetry; apply Qltb_ge; exact Hlo).
    reflexivity. }
  split; [apply Hin|]. split.
  - intros Hx.
    assert (Hy : - (1) <= 1 / x <= 1).
    { split.
      - apply Qle_trans with 0; [discriminate|].
        apply Qle_shift_div_l; lra.
      - apply Qle_shift_div_r; lra. }
    split; [exact Hy|]. intros a Ha.
    rewrite (arctan_above x (Datatypes.S depth) fuel (proj2 (Qltb_lt 1 x) Hx)).
    rewrite Qdiv_guarded by discriminate. cbn [guard]. rewrite bind_ret_l.
    rewrite Qdiv_guarded by (intros H0; rewrite H0 in Hx; discriminate Hx).
    cbn [guard]. rewrite bind_ret_l.
    change (of_int 1 / x) with (1 / x).
    rewrite (Hin _ depth Hy), (bind_Ok_quiet _ _ _ Ha). reflexivity.
  - intros Hx.
    assert (Hy : - (1) <= 1 / x <= 1).
    { setoid_replace (1 / x) with (- (1 / - x)) by (field; lra). split.
      - apply Qopp_le_compat. apply Qle_shift_div_r; lra.
      - apply Qle_trans with 0; [|discriminate].
        setoid_replace 0 with (- 0) by reflexivity.
        apply Qopp_le_compat. apply Qle_shift_div_l; lra. }
    split; [exact Hy|]. intros a Ha.
    assert (Hx1 : x <= 1) by lra.
    rewrite (arctan_below x (Datatypes.S depth) fuel
               (proj2 (Qltb_ge 1 x) Hx1) (proj2 (Qltb_lt x (- (1))) Hx)).
    rewrite Qdiv_guarded by discriminate. cbn [guard]. rewrite bind_ret_l.
    rewrite Qdiv_guarded by (intros H0; rewrite H0 in Hx; discriminate Hx).
    cbn [guard]. rewrite bind_ret_l.
    change (of_int 1 / x) with (1 / x).
    rewrite (Hin _ depth Hy), (bind_Ok_quiet _ _ _ Ha). reflexivity.
Qed.

Lemma arctan_nests_witness :
  - (1) <= 1 / 3 <= 1
  /\ forall a : Q,
      arctan 1 20 (1 / 3) = Ok a "" -> arctan 2 20 3 = Ok (PI / inject_Z 2 - a) "".
Proof.
  apply (proj1 (proj2 (arctan_nests_once 3 0 20))). reflexivity.
Defined.

(** ** Parity: the runs on [x] and on [-x] *)

Lemma run_rel_bind {A B A' B' : Type} (R : A -> A' -> Prop) (R' : B -> B' -> Prop)
  (m : run A) (m' : run A') (k : A -> run B) (k' : A' -> run B') :
  run_rel R m m' ->
  (forall a a', R a a' -> run_rel R' (k a) (k' a')) ->
  run_rel R' (bind m k) (bind m' k').
Proof.
  intros Hm Hk. destruct m as [a o|f], m' as [a' o'|f']; cbn in Hm; try contradiction.
  - destruct Hm as [HR ->]. specialize (Hk a a' HR). cbn [bind].
    destruct (k a) as [b p|g], (k' a') as [b' p'|g']; cbn in Hk; try contradiction.
    + destruct Hk as [HR' ->]. cbn. split; [exact HR' | reflexivity].
    + exact Hk.
  - exact Hm.
Qed.

Lemma run_rel_ret {A B : Type} (R : A -> B -> Prop) (a : A) (b : B) :
  R a b -> run_rel R (ret a) (ret b).
Proof. intros H. cbn. split; [exact H | reflexivity]. Qed.

Lemma while_sim {S S' : Type} (R : S -> S' -> Prop)
  (cond : S -> bool) (cond' : S' -> bool) (body : S -> run S) (body' : S' -> run S') :
  (forall s s', R s s' -> cond s = cond' s') ->
  (forall s s', R s s' -> run_rel R (body s) (body' s')) ->
  forall (fuel : nat) (s : S) (s' : S'),
    R s s' -> run_rel R (while fuel cond body s) (while fuel cond' body' s').
Proof.
  intros Hcond Hbody. induction fuel as [|fuel IH]; intros s s' HR.
  - cbn [while]. rewrite <- (Hcond s s' HR). destruct (cond s).
    + reflexivity.
    + apply run_rel_ret, HR.
  - cbn [while]. rewrite <- (Hcond s s' HR). destruct (cond s).
    + apply run_rel_bind with (R := R); [apply Hbody, HR | exact IH].
    + apply run_rel_ret, HR.
Qed.

Lemma Qltb_wd (a b c d : Q) : a == c -> b == d -> Qltb a b = Qltb c d.
Proof.
  intros Hac Hbd. destruct (Qltb c d) eqn:H.
  - apply Qltb_lt. apply Qltb_lt in H. rewrite Hac, Hbd. exact H.
  - apply Qltb_ge. apply Qltb_ge in H. rewrite Hac, Hbd. exact H.
Qed.

Lemma Qdiv_rel (R : Q -> Q -> Prop) (a b c d : Q) :
  b == d -> (~ b == 0 -> R (a / b) (c / d)) ->
  run_rel R (guard DivisionByZero (div a b)) (guard DivisionByZero (div c d)).
Proof.
  intros Hbd HR. cbn [div QDouble].
  assert (Hq : Qeq_bool d 0 = Qeq_bool b 0).
  { destruct (Qeq_bool b 0) eqn:Hb.
    - apply Qeq_bool_iff. rewrite <- Hbd. apply Qeq_bool_iff, Hb.
    - apply Qeq_bool_false. intros Hd. rewrite <- Hbd in Hd.
      apply Qeq_bool_iff in Hd. congruence. }
  rewrite Hq. destruct (Qeq_bool b 0) eqn:Hb; cbn [guard].
  - reflexivity.
  - apply run_rel_ret, HR. intros H0. apply Qeq_bool_iff in H0. congruence.
Qed.

Lemma series_cond_scaled (eps sg : Q) (s s' : Q * Q * Z) :
  Qabs sg == 1 -> scaled_state sg s s' -> series_cond eps s = series_cond eps s'.
Proof.
  destruct s as [[t u] n], s' as [[t' u'] n']. intros Hsg (Ht & _ & _).
  unfold series_cond. cbn [ltb QDouble]. apply Qltb_wd; [reflexivity|].
  rewrite !abso_Qabs, Ht, Qabs_Qmult, Hsg. ring.
Qed.

(** A body [term *= q(x); sum += term; n++] whose ratio [q] is the same on
    both sides keeps the states scaled. *)
Lemma ratio_body_rel (num num' : Q) (den next : Z) (t u t' u' : Q) (sg : Q) :
  num' == num -> t' == sg * t -> u' == sg * u ->
  run_rel (scaled_state sg)
    (q <- guard DivisionByZero (div num (of_int den)) ;;
     let term := mul t q in ret (term, add u term, next))%run
    (q <- guard DivisionByZero (div num' (of_int den)) ;;
     let term := mul t' q in ret (term, add u' term, next))%run.
Proof.
  intros Hnum Ht Hu.
  apply run_rel_bind with (R := Qeq).
  - apply Qdiv_rel; [reflexivity|]. intros _. rewrite Hnum. reflexivity.
  - intros q q' Hq. apply run_rel_ret. cbn [mul add QDouble scaled_state].
    rewrite Hq, Ht, Hu. repeat split; ring.
Qed.

(** The loop of a series and its [return sum], on scaled states. *)
Lemma series_loop_rel (eps sg : Q) (fuel : nat)
  (body body' : Q * Q * Z -> run (Q * Q * Z)) (s s' : Q * Q * Z) :
  Qabs sg == 1 ->
  (forall t u n t' u', t' == sg * t -> u' == sg * u ->
     run_rel (scaled_state sg) (body (t, u, n)) (body' (t', u', n))) ->
  scaled_state sg s s' ->
  run_rel (fun a b : Q => b == sg * a)
    ('(_, sum, _) <- while fuel (series_cond eps) body s ;; ret sum)%run
    ('(_, sum, _) <- while fuel (series_cond eps) body' s' ;; ret sum)%run.
Proof.
  intros Hsg Hbody Hs.
  apply run_rel_bind with (R := scaled_state sg).
  - apply while_sim; [| |exact Hs].
    + intros a b. apply series_cond_scaled, Hsg.
    + intros [[t u] n] [[t' u'] n'] (Ht & Hu & ->). apply Hbody; assumption.
  - intros [[t u] n] [[t' u'] n'] (Ht & Hu & ->). apply run_rel_ret, Hu.
Qed.

Lemma run_rel_weaken {A B : Type} (R R' : A -> B -> Prop) (m : run A) (m' : run B) :
  (forall a b, R a b -> R' a b) -> run_rel R m m' -> run_rel R' m m'.
Proof.
  intros HR. destruct m as [a o|f], m' as [b o'|f']; cbn; try tauto.
  intros [H ->]. split; [apply HR, H | reflexivity].
Qed.

Lemma opposite_scaled (m m' : run Q) :
  run_rel (fun a b : Q => b == - (1) * a) m m' -> opposite m m'.
Proof. apply run_rel_weaken. intros a b H. rewrite H. ring. Qed.

Lemma alike_scaled (m m' : run Q) :
  run_rel (fun a b : Q => b == 1 * a) m m' -> alike m m'.
Proof. apply run_rel_weaken. intros a b H. rewrite H. ring. Qed.

Lemma Qltb_opp (a b c d : Q) : c == - b -> d == - a -> Qltb a b = Qltb c d.
Proof.
  intros Hc Hd. destruct (Qltb c d) eqn:H.
  - apply Qltb_lt. apply Qltb_lt in H. lra.
  - apply Qltb_ge. apply Qltb_ge in H. lra.
Qed.

Lemma norm_down_up (fuel : nat) (a b : Q) :
  b == - a -> opposite (norm_down fuel a) (norm_up fuel b).
Proof.
  apply (while_sim (fun a b : Q => b == - a)).
  - intros s s' Hs. cbn [ltb QDouble]. apply Qltb_opp; [exact Hs | reflexivity].
  - intros s s' Hs. apply run_rel_ret. cbn [add sub QDouble]. rewrite Hs. ring.
Qed.

Lemma norm_up_down (fuel : nat) (a b : Q) :
  b == - a -> opposite (norm_up fuel a) (norm_down fuel b).
Proof.
  apply (while_sim (fun a b : Q => b == - a)).
  - intros s s' Hs. cbn [ltb QDouble]. apply Qltb_opp; [reflexivity | exact Hs].
  - intros s s' Hs. apply run_rel_ret. cbn [add sub QDouble]. rewrite Hs. ring.
Qed.

(** Where the first loop of [normalize] stops. *)
Lemma norm_down_shape (fuel : nat) :
  forall x : Q,
    match norm_down fuel x with
    | Ok r o => o = ""%string /\ ((x <= two_pi /\ r = x) \/ (two_pi < x /\ 0 < r <= two_pi))
    | Fault f => two_pi < x
    end.
Proof.
  unfold norm_down. fold two_pi. pose proof two_pi_bounds as [Hp6 Hp7].
  induction fuel as [|fuel IH]; intros x.
  - cbn [while]. cbn [ltb QDouble]. destruct (Qltb two_pi x) eqn:Hc.
    + apply Qltb_lt, Hc.
    + unfold ret. split; [reflexivity|]. left. apply Qltb_ge in Hc. split; [exact Hc | reflexivity].
  - destruct (Qltb two_pi x) eqn:Hc.
    + rewrite while_step by exact Hc. rewrite bind_ret_l.
      apply Qltb_lt in Hc. specialize (IH (sub x two_pi)).
      destruct (while fuel _ _ (sub x two_pi)) as [r o|f]; [|exact Hc].
      destruct IH as [Ho [[H1 H2] | [H1 H2]]]; (split; [exact Ho|]); right;
        (split; [exact Hc|]).
      * subst r. cbn [sub QDouble] in *. lra.
      * exact H2.
    + rewrite while_done by exact Hc. unfold ret. split; [reflexivity|]. left.
      apply Qltb_ge in Hc. split; [exact Hc | reflexivity].
Qed.

Lemma norm_up_shape (fuel : nat) :
  forall x : Q,
    match norm_up fuel x with
    | Ok r o => o = ""%string /\ ((- two_pi <= x /\ r = x) \/ (x < - two_pi /\ - two_pi <= r < 0))
    | Fault f => x < - two_pi
    end.
Proof.
  unfold norm_up. fold two_pi. pose proof two_pi_bounds as [Hp6 Hp7].
  pose proof minus_two_pi as Hm.
  induction fuel as [|fuel IH]; intros x.
  - cbn [while]. cbn [ltb QDouble]. destruct (Qltb x (mul (of_int (-2)) PI)) eqn:Hc.
    + apply Qltb_lt in Hc. lra.
    + unfold ret. split; [reflexivity|]. left. apply Qltb_ge in Hc. split; [lra | reflexivity].
  - destruct (Qltb x (mul (of_int (-2)) PI)) eqn:Hc.
    + rewrite while_step by exact Hc. rewrite bind_ret_l.
      apply Qltb_lt in Hc. specialize (IH (add x two_pi)).
      destruct (while fuel _ _ (add x two_pi)) as [r o|f]; [|lra].
      destruct IH as [Ho [[H1 H2] | [H1 H2]]]; (split; [exact Ho|]); right;
        (split; [lra|]).
      * subst r. cbn [add QDouble] in *. lra.
      * exact H2.
    + rewrite while_done by exact Hc. unfold ret. split; [reflexivity|]. left.
      apply Qltb_ge in Hc. split; [lra | reflexivity].
Qed.

(** The two loops of [normalize] can be run in either order. *)
Lemma normalize_commutes (fuel : nat) (x : Q) :
  bind (norm_down fuel x) (norm_up fuel) = bind (norm_up fuel x) (norm_down fuel).
Proof.
  pose proof two_pi_bounds as [Hp6 Hp7]. pose proof minus_two_pi as Hm.
  assert (Hstay_up : forall y, - two_pi <= y -> norm_up fuel y = ret y).
  { intros y Hy. apply while_done. apply Qltb_ge. lra. }
  assert (Hstay_down : forall y, y <= two_pi -> norm_down fuel y = ret y).
  { intros y Hy. apply while_done. apply Qltb_ge. exact Hy. }
  destruct (Qlt_le_dec two_pi x) as [Hhi|Hhi].
  - rewrite (Hstay_up x) by lra. rewrite bind_ret_l.
    pose proof (norm_down_shape fuel x) as Hs.
    destruct (norm_down fuel x) as [r o|f]; [|reflexivity].
    destruct Hs as [-> [[H1 _] | [_ H2]]]; [lra|].
    cbn [bind]. rewrite (Hstay_up r) by lra. reflexivity.
  - rewrite (Hstay_down x) by exact Hhi. rewrite bind_ret_l.
    pose proof (norm_up_shape fuel x) as Hs.
    destruct (norm_up fuel x) as [r o|f]; [|reflexivity].
    destruct Hs as [-> [[H1 ->] | [_ H2]]].
    + cbn [bind]. rewrite (Hstay_down x) by exact Hhi. reflexivity.
    + cbn [bind]. rewrite (Hstay_down r) by lra. reflexivity.
Qed.

Lemma normalize_opposite (fuel : nat) (a b : Q) :
  b == - a -> opposite (normalize fuel a) (normalize fuel b).
Proof.
  intros Hb. change (normalize fuel a) with (bind (norm_down fuel a) (norm_up fuel)).
  change (normalize fuel b) with (bind (norm_down fuel b) (norm_up fuel)).
  rewrite normalize_commutes.
  apply run_rel_bind with (R := fun a b : Q => b == - a).
  - apply norm_up_down, Hb.
  - intros r r' Hr. apply norm_down_up, Hr.
Qed.

Lemma sin_opposite (fuel : nat) (a b : Q) :
  b == - a -> opposite (sin_ fuel a) (sin_ fuel b).
Proof.
  intros Hb. unfold sin_.
  apply run_rel_bind with (R := fun a b : Q => b == - a);
    [apply normalize_opposite, Hb|].
  clear a b Hb. intros a b Hb.
  apply opposite_scaled, series_loop_rel; [reflexivity | | ].
  - intros t u n t' u' Ht Hu. apply ratio_body_rel; [|exact Ht | exact Hu].
    cbn [mul of_int QDouble]. rewrite Hb. ring.
  - cbn. rewrite Hb. repeat split; ring.
Qed.

Lemma cos_alike (fuel : nat) (a b : Q) :
  b == - a -> alike (cos_ fuel a) (cos_ fuel b).
Proof.
  intros Hb. unfold cos_.
  apply run_rel_bind with (R := fun a b : Q => b == - a);
    [apply normalize_opposite, Hb|].
  clear a b Hb. intros a b Hb.
  apply alike_scaled, series_loop_rel; [reflexivity | | ].
  - intros t u n t' u' Ht Hu. apply ratio_body_rel; [|exact Ht | exact Hu].
    cbn [mul of_int QDouble]. rewrite Hb. ring.
  - cbn. repeat split; reflexivity.
Qed.

Lemma tan_opposite (fuel : nat) (a b : Q) :
  b == - a -> opposite (tan_ fuel a) (tan_ fuel b).
Proof.
  intros Hb. unfold tan_.
  apply run_rel_bind with (R := fun a b : Q => b == - a);
    [apply normalize_opposite, Hb|].
  clear a b Hb. intros a b Hb.
  apply run_rel_bind with (R := Qeq); [apply cos_alike, Hb|].
  intros c c' Hc.
  replace (ltb (abso c') (lit 1 12)) with (ltb (abso c) (lit 1 12))
    by (cbn [ltb QDouble]; apply Qltb_wd; [rewrite !abso_Qabs, Hc|]; reflexivity).
  destruct (ltb (abso c) (lit 1 12)).
  - cbn. split; reflexivity.
  - apply run_rel_bind with (R := fun a b : Q => b == - a); [apply sin_opposite, Hb|].
    intros s s' Hs. apply Qdiv_rel; [exact Hc|].
    intros Hnz. rewrite Hs, <- Hc. field. exact Hnz.
Qed.

Lemma arcsin_opposite (fuel : nat) (a b : Q) :
  b == - a -> opposite (arcsin fuel a) (arcsin fuel b).
Proof.
  intros Hb. unfold arcsin.
  replace (ltb b (of_int (-1)) || ltb (of_int 1) b)
    with (ltb a (of_int (-1)) || ltb (of_int 1) a).
  2:{ rewrite orb_comm. cbn [ltb QDouble of_int]. f_equal; apply Qltb_opp; rewrite ?Hb;
      reflexivity. }
  destruct (ltb a (of_int (-1)) || ltb (of_int 1) a).
  - cbn. split; reflexivity.
  - apply opposite_scaled, series_loop_rel; [reflexivity | | ].
    + intros t u n t' u' Ht Hu. apply ratio_body_rel; [|exact Ht | exact Hu].
      cbn [mul of_int QDouble]. rewrite Hb. ring.
    + cbn. rewrite Hb. repeat split; ring.
Qed.

Lemma arctan_opposite (depth fuel : nat) :
  forall a b : Q, b == - a -> opposite (arctan depth fuel a) (arctan depth fuel b).
Proof.
  induction depth as [|depth IH]; intros a b Hb; [reflexivity|].
  assert (Hrec : forall (h h' : Q),
             h' == - h -> ~ a == 0 ->
             opposite
               (y <- guard DivisionByZero (div (of_int 1) a) ;;
                r <- arctan depth fuel y ;; ret (sub h r))%run
               (y <- guard DivisionByZero (div (of_int 1) b) ;;
                r <- arctan depth fuel y ;; ret (sub h' r))%run).
  { intros h h' Hh Ha.
    apply run_rel_bind with (R := fun a b : Q => b == - a).
    - rewrite (Qdiv_guarded _ a) by exact Ha.
      rewrite (Qdiv_guarded _ b) by (intros H0; apply Ha; lra).
      apply run_rel_ret. rewrite Hb. cbn [of_int QDouble]. field. exact Ha.
    - intros y y' Hy. apply run_rel_bind with (R := fun a b : Q => b == - a);
        [apply IH, Hy|].
      intros r r' Hr. apply run_rel_ret. cbn [sub QDouble]. rewrite Hr, Hh. ring. }
  cbn [arctan]. cbn [ltb QDouble of_int].
  destruct (Qltb (inject_Z 1) a) eqn:H1.
  - apply Qltb_lt in H1. change (inject_Z 1) with 1 in H1.
    replace (Qltb (inject_Z 1) b) with false
      by (symmetry; apply Qltb_ge; change (inject_Z 1) with 1; lra).
    replace (Qltb b (inject_Z (-1))) with true
      by (symmetry; apply Qltb_lt; change (inject_Z (-1)) with (- (1)); lra).
    rewrite (Qdiv_guarded PI), (Qdiv_guarded (neg PI)) by discriminate.
    cbn [guard]. rewrite !bind_ret_l.
    apply Hrec; [reflexivity | lra].
  - apply Qltb_ge in H1. change (inject_Z 1) with 1 in H1.
    destruct (Qltb a (inject_Z (-1))) eqn:H2.
    + apply Qltb_lt in H2. change (inject_Z (-1)) with (- (1)) in H2.
      replace (Qltb (inject_Z 1) b) with true
        by (symmetry; apply Qltb_lt; change (inject_Z 1) with 1; lra).
      rewrite (Qdiv_guarded PI), (Qdiv_guarded (neg PI)) by discriminate.
      cbn [guard]. rewrite !bind_ret_l.
      apply Hrec; [reflexivity | lra].
    + apply Qltb_ge in H2. change (inject_Z (-1)) with (- (1)) in H2.
      replace (Qltb (inject_Z 1) b) with false
        by (symmetry; apply Qltb_ge; change (inject_Z 1) with 1; lra).
      replace (Qltb b (inject_Z (-1))) with false
        by (symmetry; apply Qltb_ge; change (inject_Z (-1)) with (- (1)); lra).
      apply opposite_scaled, series_loop_rel; [reflexivity | | ].
      * intros t u n t' u' Ht Hu. apply ratio_body_rel; [|exact Ht | exact Hu].
        cbn [mul neg of_int QDouble]. rewrite Hb. ring.
      * cbn. rewrite Hb. repeat split; ring.
Qed.

(** X17: on every rational [x] and with every fuel, the runs of [normalize],
    [sin_] and [tan_] on [-x] fail as those on [x] do or return the opposite
    value after the same output, and the run of [cos_] on [-x] returns the
    same value as that on [x]. *)
Theorem trig_parity (x : Q) (fuel : nat) :
  opposite (normalize fuel x) (normalize fuel (- x))
  /\ opposite (sin_ fuel x) (sin_ fuel (- x))
  /\ alike (cos_ fuel x) (cos_ fuel (- x))
  /\ opposite (tan_ fuel x) (tan_ fuel (- x)).
Proof.
  split; [|split; [|split]].
  - apply normalize_opposite. reflexivity.
  - apply sin_opposite. reflexivity.
  - apply cos_alike. reflexivity.
  - apply tan_opposite. reflexivity.
Qed.

(** X18: on every rational [x], with every fuel and depth, the runs of
    [arcsin] and [arctan] on [-x] fail as those on [x] do or return the
    opposite value after the same output; where [arccos] returns on [x] in
    [[-1, 1]], it returns on [-x], and the two results add up to [PI]. *)
Theorem inverse_trig_parity (x : Q) (depth fuel : nat) :
  opposite (arcsin fuel x) (arcsin fuel (- x))
  /\ opposite (arctan depth fuel x) (arctan depth fuel (- x))
  /\ (- (1) <= x <= 1 ->
      run_rel (fun a b : Q => a + b == PI) (arccos fuel x) (arccos fuel (- x))).
Proof.
  split; [|split].
  - apply arcsin_opposite. reflexivity.
  - apply arctan_opposite. reflexivity.
  - intros Hx. unfold arccos.
    rewrite (proj2 (domain_test_Q x)) by exact Hx.
    rewrite (proj2 (domain_test_Q (- x))) by lra.
    rewrite !Qdiv_guarded by discriminate. cbn [guard]. rewrite !bind_ret_l.
    apply run_rel_bind with (R := fun a b : Q => b == - a);
      [apply arcsin_opposite; reflexivity|].
    intros r r' Hr. apply run_rel_ret. cbn [sub QDouble]. rewrite Hr.
    change (of_int 2) with (inject_Z 2). field.
Qed.

(** ** [fact], [power], [abso], [hasDecimal] and [mySqrt] once more *)

Local Open Scope Z_scope.

Lemma long_long_mul (a b : Z) : long_ (long_ a * b) = long_ (a * b).
Proof.
  unfold long_, wrap.
  replace ((a + 2 ^ (64 - 1)) mod 2 ^ 64 - 2 ^ (64 - 1)) with
    ((a + 2 ^ (64 - 1)) mod 2 ^ 64 + - 2 ^ (64 - 1)) by lia.
  f_equal.
  rewrite Z.mul_add_distr_r, <- Z.add_assoc, Z.add_mod by lia.
  rewrite Z.mul_mod_idemp_l by lia.
  rewrite <- Z.add_mod by lia. f_equal. lia.
Qed.

Lemma fact_loop (n : nat) :
  forall (fuel : nat) (pro : Z),
    (n <= fuel)%nat -> Z.of_nat n + 1 <= INT_MAX ->
    while fuel (fun '(x, pro) => 1 <? x)
      (fun '(x, pro) => ret (int_ (x - 1), long_ (pro * x)))
      (Z.of_nat n + 1, long_ pro)
    = Ok (1, long_ (pro * factZ (Datatypes.S n))) "".
Proof.
  induction n as [|n IH]; intros fuel pro Hfuel Hint.
  - rewrite while_done by reflexivity. unfold ret. cbn [factZ Z.of_nat].
    do 3 f_equal. lia.
  - destruct fuel as [|fuel]; [lia|].
    rewrite while_step by (apply Z.ltb_lt; lia).
    rewrite bind_ret_l.
    rewrite int_small by (unfold INT_MIN, INT_MAX in *; lia).
    rewrite long_long_mul.
    replace (Z.of_nat (Datatypes.S n) + 1 - 1) with (Z.of_nat n + 1) by lia.
    rewrite IH by lia. do 3 f_equal.
    change (factZ (Datatypes.S (Datatypes.S n)))
      with (Z.of_nat (Datatypes.S (Datatypes.S n)) * factZ (Datatypes.S n)).
    rewrite (Nat2Z.inj_succ (Datatypes.S n)). ring.
Qed.

(** X19: for [1 <= x], with fuel for [x - 1] rounds, [fact] returns [x!]
    reduced to the 64 bits of [long]; up to 20 that is [x!] itself. *)
Theorem fact_is_factorial (x : Z) (fuel : nat) :
  1 <= x <= INT_MAX -> x - 1 <= Z.of_nat fuel ->
  fact fuel x = Ok (long_ (factZ (Z.to_nat x))) ""
  /\ (x <= 20 -> fact fuel x = Ok (factZ (Z.to_nat x)) "").
Proof.
  intros Hx Hfuel.
  assert (Hrun : fact fuel x = Ok (long_ (factZ (Z.to_nat x))) "").
  { unfold fact.
    pose proof (fact_loop (Z.to_nat (x - 1)) fuel 1 ltac:(lia) ltac:(lia)) as H.
    replace (Z.of_nat (Z.to_nat (x - 1)) + 1) with x in H by lia.
    change (long_ 1) with 1 in H. rewrite (bind_Ok_quiet _ _ _ H).
    replace (Datatypes.S (Z.to_nat (x - 1))) with (Z.to_nat x) by lia.
    rewrite Z.mul_1_l. reflexivity. }
  split; [exact Hrun|].
  intros H20. rewrite Hrun. f_equal.
  assert (Hin : In x (map Z.of_nat (seq 1 20)))
    by (replace x with (Z.of_nat (Z.to_nat x)) by lia; apply in_map, in_seq; lia).
  cbn in Hin.
  repeat (destruct Hin as [<- | Hin]; [reflexivity|]). contradiction.
Qed.

Lemma fact_witness_more : fact 9 10 = Ok 3628800 "".
Proof.
  apply (fact_is_factorial 10 9); [unfold INT_MAX; lia | lia | lia].
Defined.

Local Open Scope Q_scope.



(** X21: in exact arithmetic [abso] is the absolute value: never negative,
    the same on [x] and [-x], and unchanged by a second application. *)
Theorem abso_is_absolute_value (x : Q) :
  abso x == Qabs x /\ 0 <= abso x /\ abso (- x) == abso x /\ abso (abso x) = abso x.
Proof.
  split; [apply abso_Qabs|]. split; [|split].
  - rewrite abso_Qabs. apply Qabs_nonneg.
  - rewrite !abso_Qabs. apply Qabs_opp.
  - assert (H : 0 <= abso x) by (rewrite abso_Qabs; apply Qabs_nonneg).
    unfold abso at 1. replace (ltb (abso x) (of_int 0)) with false; [reflexivity|].
    symmetry. apply Qltb_ge. exact H.
Qed.

Lemma Qtrunc_opp (x : Q) : Qtrunc (- x) = (- Qtrunc x)%Z.
Proof.
  unfold Qtrunc. destruct x as [n d]. cbn [Qopp Qnum Qden].
  apply Z.quot_opp_l. discriminate.
Qed.

(** X22: [hasDecimal] answers false on every whole number of the range of
    [int], and gives the same answer on [x] and on [-x]. *)
Theorem hasDecimal_whole_and_sign (x : Q) (z : Z) :
  in_int z = true -> in_int (Qtrunc x) = true -> in_int (- Qtrunc x) = true ->
  hasDecimal (inject_Z z) = Ok false ""
  /\ hasDecimal (- x) = hasDecimal x.
Proof.
  intros Hz Hx Hx'. split.
  - unfold hasDecimal. cbn [to_int QDouble].
    assert (Ht : Qtrunc (inject_Z z) = z) by (unfold Qtrunc; cbn; apply Z.quot_1_r).
    rewrite Ht, Hz. cbn [guard]. rewrite bind_ret_l. unfold ret. f_equal.
    cbn [ltb QDouble]. apply Qltb_ge. rewrite abso_Qabs.
    assert (H0 : sub (inject_Z z) (of_int z) == 0) by (cbn [sub of_int QDouble]; ring).
    rewrite H0. discriminate.
  - unfold hasDecimal. cbn [to_int QDouble].
    rewrite Qtrunc_opp, Hx, Hx'. cbn [guard]. rewrite !bind_ret_l. unfold ret. f_equal.
    cbn [ltb QDouble]. apply Qltb_wd; [reflexivity|].
    rewrite !abso_Qabs. cbn [sub of_int QDouble].
    rewrite inject_Z_opp.
    setoid_replace (- x - - inject_Z (Qtrunc x)) with (- (x - inject_Z (Qtrunc x))) by ring.
    apply Qabs_opp.
Qed.

Lemma hasDecimal_sign_witness :
  hasDecimal (inject_Z (-7)) = Ok false ""
  /\ hasDecimal (- (5 # 2)) = hasDecimal (5 # 2).
Proof.
  apply (hasDecimal_whole_and_sign (5 # 2) (-7)); reflexivity.
Defined.

Local Open Scope Z_scope.

(** ** The cipher for every shift *)

Lemma forall_letters (P : ascii -> bool) :
  forallb P letters = true -> forall c, is_letter c = true -> P c = true.
Proof.
  intros Hall c Hc. rewrite forallb_forall in Hall. apply Hall.
  apply filter_In. split; [apply all_ascii_complete | exact Hc].
Qed.

Lemma shift_char_other (t : Z) (c : ascii) : is_letter c = false -> shift_char t c = c.
Proof.
  unfold is_letter. intros Hc. apply orb_false_iff in Hc as [Hl Hu].
  unfold shift_char. rewrite Hl, Hu. reflexivity.
Qed.

Lemma iter_shift_other (n : nat) (c : ascii) :
  is_letter c = false -> Nat.iter n (shift_char 1) c = c.
Proof.
  intros Hc. induction n as [|n IH]; [reflexivity|].
  rewrite Nat.iter_succ, IH. apply shift_char_other, Hc.
Qed.

Lemma shift_char_rotate (t : Z) (c : ascii) :
  -26 < t < 26 -> shift_char t c = rotate t c.
Proof.
  intros Ht. destruct (is_letter c) eqn:Hc.
  - apply Ascii.eqb_eq.
    assert (Hall : forallb (fun t => forallb (rotate_checkb t) letters) small_shifts = true)
      by (vm_compute; reflexivity).
    rewrite forallb_forall in Hall.
    apply (forall_letters (rotate_checkb t)); [|exact Hc].
    apply Hall, small_shifts_complete, Ht.
  - rewrite shift_char_other by exact Hc. unfold rotate.
    symmetry. apply iter_shift_other, Hc.
Qed.

Lemma full_turn (c : ascii) : Nat.iter 26 (shift_char 1) c = c.
Proof.
  destruct (is_letter c) eqn:Hc.
  - apply Ascii.eqb_eq.
    apply (forall_letters (fun c => Ascii.eqb (Nat.iter 26 (shift_char 1) c) c));
      [vm_compute; reflexivity | exact Hc].
  - apply iter_shift_other, Hc.
Qed.

Lemma rem_mod_26 (a : Z) : Z.rem a 26 mod 26 = a mod 26.
Proof.
  rewrite (Z.quot_rem' a 26) at 2.
  rewrite Z.add_comm, Z.mul_comm, Z_mod_plus_full. reflexivity.
Qed.

Lemma rotate_rotate (a b : Z) (c : ascii) : rotate a (rotate b c) = rotate (a + b) c.
Proof.
  unfold rotate. rewrite <- Nat.iter_add.
  pose proof (Z.mod_pos_bound a 26 ltac:(lia)) as Ha.
  pose proof (Z.mod_pos_bound b 26 ltac:(lia)) as Hb.
  rewrite Z.add_mod by lia.
  destruct (Z.ltb_spec (a mod 26 + b mod 26) 26) as [Hlt|Hge].
  - rewrite (Z.mod_small (a mod 26 + b mod 26)) by lia.
    f_equal. lia.
  - replace ((a mod 26 + b mod 26) mod 26) with (a mod 26 + b mod 26 - 26).
    + replace (Z.to_nat (a mod 26) + Z.to_nat (b mod 26))%nat
        with (Z.to_nat (a mod 26 + b mod 26 - 26) + 26)%nat by lia.
      rewrite Nat.iter_add, full_turn. reflexivity.
    + symmetry. rewrite <- (Z_mod_plus_full _ (-1)).
      apply Z.mod_small. lia.
Qed.

Lemma transform_rotate (sv : Z) (s : string) :
  transform sv s = string_map (rotate sv) s.
Proof.
  rewrite transform_map.
  induction s as [|c s IH]; cbn [string_map]; [reflexivity|].
  rewrite IH, shift_char_rotate by apply rem_26_small.
  unfold rotate. rewrite rem_mod_26. reflexivity.
Qed.

(** X24: the passes of the cipher compose: shifting by [b] and then by [a] is
    shifting by [a + b].  So the shift [-sv] undoes the shift [sv], whatever
    [sv] is, a shift that is a multiple of 26 changes nothing, and two shifts
    that differ by a multiple of 26 give the same text. *)
Theorem caesar_shifts_compose (a b : Z) (s : string) :
  transform a (transform b s) = transform (a + b) s
  /\ transform (- a) (transform a s) = s
  /\ transform (26 * a) s = s
  /\ transform (a + 26 * b) s = transform a s.
Proof.
  assert (Hid : forall k, k mod 26 = 0 -> forall t, string_map (rotate k) t = t).
  { intros k Hk t. apply string_map_id. intros c. unfold rotate. rewrite Hk. reflexivity. }
  assert (Hcomp : forall x y t, transform x (transform y t) = transform (x + y) t).
  { intros x y t. rewrite !transform_rotate, string_map_map.
    induction t as [|c t IH]; cbn [string_map]; [reflexivity|].
    rewrite IH, rotate_rotate. reflexivity. }
  split; [apply Hcomp|]. split; [|split].
  - rewrite Hcomp, transform_rotate. apply Hid.
    replace (- a + a) with 0 by lia. reflexivity.
  - rewrite transform_rotate. apply Hid.
    rewrite Z.mul_comm. apply Z_mod_mult.
  - rewrite !transform_rotate.
    induction s as [|c s IH]; cbn [string_map]; [reflexivity|].
    rewrite IH. unfold rotate. rewrite Z.mul_comm, Z_mod_plus_full. reflexivity.
Qed.

(** X25: for every shift the pass keeps the length of the text, maps small
    letters to small letters and capitals to capitals, and leaves every other
    character where it is. *)
Theorem caesar_keeps_shape (sv : Z) (s : string) :
  String.length (transform sv s) = String.length s
  /\ Forall2 case_kept (list_ascii_of_string s) (list_ascii_of_string (transform sv s)).
Proof.
  split.
  - rewrite transform_map. apply string_map_length.
  - apply transform_case_kept.
Qed.

(** ** The search of Level2 *)

Lemma undo_is_shift (t : Z) (c : ascii) :
  1 <= t <= 25 -> is_upper c = false ->
  undo_char t c = shift_char (Z.rem (- t) 26) c
  /\ (is_lower c = true -> is_lower (undo_char t c) = true).
Proof.
  intros Ht Hu. destruct (is_letter c) eqn:Hc.
  - assert (Hall : forallb (fun t => forallb (undo_is_shiftb t) letters) small_shifts = true)
      by (vm_compute; reflexivity).
    rewrite forallb_forall in Hall.
    assert (Hb : undo_is_shiftb t c = true).
    { apply (forall_letters (undo_is_shiftb t)); [|exact Hc].
      apply Hall, small_shifts_complete. lia. }
    unfold undo_is_shiftb in Hb.
    destruct (Z.leb_spec 1 t) as [_|Hlt]; [|lia].
    rewrite Hu in Hb. cbn [implb orb] in Hb.
    apply andb_prop in Hb as [H1 H2]. split; [apply Ascii.eqb_eq, H1|].
    intros Hl. rewrite Hl in H2. exact H2.
  - unfold is_letter in Hc. apply orb_false_iff in Hc as [Hl _].
    split.
    + unfold undo_char, shift_char. rewrite Hl, Hu. reflexivity.
    + intros Hl'. congruence.
Qed.

Lemma decoded_no_capital (t : Z) (cipher : string) :
  1 <= t <= 25 -> no_capital cipher -> decoded t cipher = transform (- t) cipher.
Proof.
  unfold no_capital. intros Ht Hc. rewrite decoded_map, transform_map.
  induction cipher as [|c s IH]; cbn [string_map list_ascii_of_string] in *;
    [reflexivity|].
  inversion Hc as [|? ? Hu Hrest]; subst.
  rewrite IH by exact Hrest.
  rewrite (proj1 (undo_is_shift t c Ht Hu)). reflexivity.
Qed.

Lemma decoded_shape (t : Z) (cipher : string) :
  1 <= t <= 25 ->
  String.length (decoded t cipher) = String.length cipher
  /\ Forall2 decoded_char (list_ascii_of_string cipher)
       (list_ascii_of_string (decoded t cipher)).
Proof.
  intros Ht. rewrite decoded_map. split; [apply string_map_length|].
  induction cipher as [|c s IH]; cbn [string_map list_ascii_of_string]; constructor.
  - unfold decoded_char, undo_char. destruct (is_lower c) eqn:Hl; [|reflexivity].
    assert (Hu : is_upper c = false).
    { assert (H : implb (is_lower c) (negb (is_upper c)) = true)
        by (apply (forall_ascii (fun c => implb (is_lower c) (negb (is_upper c)))); reflexivity).
      rewrite Hl in H. cbn in H. apply negb_true_iff, H. }
    pose proof (proj2 (undo_is_shift t c Ht Hu) Hl) as H.
    unfold undo_char in H. rewrite Hl in H. exact H.
  - exact IH.
Qed.

Lemma c_str_idempotent (n : nat) (line : string) :
  c_str n (c_str n line) = c_str n line.
Proof.
  revert line. induction n as [|n IH]; intros line; [reflexivity|].
  destruct line as [|ch rest]; [reflexivity|].
  cbn [c_str]. destruct (code ch =? 0) eqn:Hc; [reflexivity|].
  cbn [c_str]. rewrite Hc, IH. reflexivity.
Qed.

(** X26: the search looks at the first 199 characters of the line only, up to
    a NUL; the text it reports has the length of that buffer, a small letter
    wherever the buffer has one, and the character of the buffer everywhere
    else. *)
Theorem level2_text_shape (line : string) :
  let cipher := getline 200 line in
  Level2.main line = Level2.main cipher
  /\ Zlength cipher <= 199
  /\ String.length (snd (Level2.main line)) = String.length cipher
  /\ Forall2 decoded_char (list_ascii_of_string cipher)
       (list_ascii_of_string (snd (Level2.main line))).
Proof.
  intros cipher.
  destruct (search_best cipher (getline_length line)) as (bs & bsc & Hsearch & Hbs & _).
  assert (Hmain : Level2.main line = (bs, decoded bs cipher)).
  { unfold Level2.main. fold cipher. rewrite Hsearch. reflexivity. }
  split; [|split; [apply getline_length|]].
  - unfold Level2.main at 2. unfold cipher, getline.
    rewrite c_str_idempotent. reflexivity.
  - rewrite Hmain. cbn [snd]. apply decoded_shape, Hbs.
Qed.

(** X27: when the buffer has no small letter (an empty line, digits,
    capitals) every shift scores 0, and the search reports shift 1 and the
    buffer as it is. *)
Theorem level2_nothing_to_decode (line : string) :
  no_small_letter (getline 200 line) ->
  Level2.main line = (1, getline 200 line).
Proof.
  intros Hnone. set (cipher := getline 200 line) in *.
  assert (Hdec : forall t, decoded t cipher = cipher).
  { intros t. rewrite decoded_map. unfold no_small_letter in Hnone.
    induction cipher as [|c s IH]; cbn [string_map list_ascii_of_string] in *;
      [reflexivity|].
    inversion Hnone as [|? ? Hl Hrest]; subst.
    rewrite IH by exact Hrest. unfold undo_char. rewrite Hl. reflexivity. }
  destruct (search_best cipher (getline_length line))
    as (bs & bsc & Hsearch & Hbs & _ & Hfirst).
  assert (bs = 1).
  { destruct (Z.eq_dec bs 1) as [|Hne]; [assumption|]. exfalso.
    specialize (Hfirst 1 ltac:(lia)). unfold score in Hfirst.
    rewrite !Hdec in Hfirst. lia. }
  subst bs. unfold Level2.main. fold cipher. rewrite Hsearch, Hdec. reflexivity.
Qed.

Lemma level2_nothing_witness : Level2.main "HELLO, 42" = (1, "HELLO, 42"%string).
Proof.
  apply (level2_nothing_to_decode "HELLO, 42").
  repeat constructor.
Defined.

(** X28: on a buffer without capital letters, the text the search reports
    for its shift [s] is what the cipher tool gives for the shift [-s], so
    encoding it with [s] gives the buffer back. *)
Theorem level2_reports_caesar_decoding (line : string) :
  no_capital (getline 200 line) ->
  exists s : Z,
    1 <= s <= 25
    /\ Level2.main line = (s, transform (- s) (getline 200 line))
    /\ transform s (snd (Level2.main line)) = getline 200 line.
Proof.
  intros Hc. set (cipher := getline 200 line) in *.
  destruct (search_best cipher (getline_length line)) as (bs & bsc & Hsearch & Hbs & _).
  assert (Hmain : Level2.main line = (bs, transform (- bs) cipher)).
  { unfold Level2.main. fold cipher.
    rewrite Hsearch, decoded_no_capital by assumption. reflexivity. }
  exists bs. split; [exact Hbs|]. split; [exact Hmain|].
  rewrite Hmain. cbn [snd].
  replace bs with (- - bs) at 1 by lia. apply transform_inverse.
Qed.

Lemma level2_caesar_witness :
  exists s : Z,
    1 <= s <= 25
    /\ Level2.main "wkh txlfn eurzq ira" = (s, transform (- s) "wkh txlfn eurzq ira")
    /\ transform s (snd (Level2.main "wkh txlfn eurzq ira")) = "wkh txlfn eurzq ira"%string.
Proof.
  apply (level2_reports_caesar_decoding "wkh txlfn eurzq ira").
  repeat constructor.
Defined.

(** * The program in its own arithmetic *)

Local Open Scope Z_scope.

(** ** Loops whose body cannot fault *)

Section PureLoops.
Context {S : Type}.
Variable cond : S -> bool.
Variable body : S -> run S.
Variable f : S -> S.
Hypothesis Hbody : forall s, body s = ret (f s).

Lemma while_pure_exits (N : nat) :
  forall (fuel : nat) (s : S),
    (N <= fuel)%nat ->
    (forall i, (i < N)%nat -> cond (Nat.iter i f s) = true) ->
    cond (Nat.iter N f s) = false ->
    while fuel cond body s = Ok (Nat.iter N f s) "".
Proof.
  induction N as [|N IH]; intros fuel s Hfuel Hbefore Hexit.
  - apply while_done. exact Hexit.
  - destruct fuel as [|fuel]; [lia|].
    rewrite while_step by (apply (Hbefore 0%nat); lia).
    rewrite Hbody, bind_ret_l, Nat.iter_succ_r. apply IH.
    + lia.
    + intros i Hi. rewrite <- Nat.iter_succ_r. apply Hbefore. lia.
    + rewrite <- Nat.iter_succ_r. exact Hexit.
Qed.

Lemma while_pure_returns (fuel : nat) :
  forall (s s' : S) (out : string),
    while fuel cond body s = Ok s' out ->
    out = ""%string
    /\ exists N : nat,
        (N <= fuel)%nat
        /\ s' = Nat.iter N f s
        /\ (forall i, (i < N)%nat -> cond (Nat.iter i f s) = true)
        /\ cond s' = false.
Proof.
  induction fuel as [|fuel IH]; intros s s' out Hrun.
  - cbn [while] in Hrun. destruct (cond s) eqn:Hc; [discriminate|].
    injection Hrun as <- <-. split; [reflexivity|].
    exists 0%nat. repeat split; [lia | intros i Hi; lia | exact Hc].
  - destruct (cond s) eqn:Hc.
    + rewrite while_step in Hrun by exact Hc.
      rewrite Hbody, bind_ret_l in Hrun.
      destruct (IH _ _ _ Hrun) as (Hout & N & HN & Hs' & Hbefore & Hexit).
      split; [exact Hout|]. exists (Datatypes.S N).
      rewrite Nat.iter_succ_r. repeat split; [lia | exact Hs' | | exact Hexit].
      intros i Hi. destruct i as [|i]; [exact Hc|].
      rewrite Nat.iter_succ_r. apply Hbefore. lia.
    + rewrite while_done in Hrun by exact Hc. injection Hrun as <- <-.
      split; [reflexivity|].
      exists 0%nat. repeat split; [lia | intros i Hi; lia | exact Hc].
Qed.

Lemma while_pure_never_faults (fuel : nat) :
  forall (s : S) (ft : fault),
    while fuel cond body s = Fault ft -> ft = OutOfFuel.
Proof.
  induction fuel as [|fuel IH]; intros s ft Hrun.
  - cbn [while] in Hrun. destruct (cond s); [congruence | discriminate].
  - destruct (cond s) eqn:Hc.
    + rewrite while_step in Hrun by exact Hc.
      rewrite Hbody, bind_ret_l in Hrun. apply (IH _ _ Hrun).
    + rewrite while_done in Hrun by exact Hc. discriminate.
Qed.
End PureLoops.

(** ** [ln] in binary64 *)














(** ** [hasDecimal] and the power option of [main] in every arithmetic *)




(** X5: in every arithmetic, binary64 included, and for an exponent whose
    truncation [p] is an [int]: when [hasDecimal] finds no fractional part,
    the power option of [main] returns [power num1 p], which is 1 for every
    [p <= 0], negative whole exponents included; when it finds one and the
    base is not positive, the option writes the message of [deciPow] and
    returns 0. *)
Theorem main_power_whole_exponent (D : Type) (A : Double D) (num1 num2 : D)
  (p : Z) (fuel : nat) :
  to_int num2 = Some p ->
  (ltb (lit 1 9) (abso (sub num2 (of_int p))) = false ->
   main_power fuel num1 num2 = Ok (power num1 p) ""
   /\ (p <= 0 -> main_power fuel num1 num2 = Ok (of_int 1) ""))
  /\ (ltb (lit 1 9) (abso (sub num2 (of_int p))) = true ->
      leb num1 (of_int 0) = true ->
      main_power fuel num1 num2 = Ok (of_int 0) power_message).
Proof.
  intros Hp.
  assert (Hdec : hasDecimal num2 = Ok (ltb (lit 1 9) (abso (sub num2 (of_int p)))) "").
  { unfold hasDecimal. rewrite Hp. reflexivity. }
  split.
  - intros Hwhole.
    assert (Hrun : main_power fuel num1 num2 = Ok (power num1 p) "").
    { unfold main_power. rewrite (bind_Ok_quiet _ _ _ Hdec), Hwhole, Hp. reflexivity. }
    split; [exact Hrun|].
    intros Hneg. rewrite Hrun, power_nonpos by exact Hneg. reflexivity.
  - intros Hfrac Hbase.
    unfold main_power. rewrite (bind_Ok_quiet _ _ _ Hdec), Hfrac.
    unfold deciPow. rewrite Hbase. reflexivity.
Qed.

Lemma main_power_witness :
  main_power (D:=float) 0 0x1p+1%float (-0x1.8p+1)%float = Ok 0x1p+0%float ""
  /\ main_power (D:=float) 0 (-0x1p+3)%float 0x1.12e0be826d695p-30%float = Ok 0x1p+0%float ""
  /\ main_power (D:=float) 0 (-0x1p+3)%float 0x1.5555555555555p-2%float
     = Ok 0x0p+0%float power_message.
Proof.
  split; [|split].
  - apply (main_power_whole_exponent float F64 0x1p+1%float (-0x1.8p+1)%float (-3) 0);
      [reflexivity | vm_compute; reflexivity | lia].
  - apply (main_power_whole_exponent float F64 (-0x1p+3)%float
             0x1.12e0be826d695p-30%float 0 0);
      [reflexivity | vm_compute; reflexivity | lia].
  - apply (main_power_whole_exponent float F64 (-0x1p+3)%float
             0x1.5555555555555p-2%float 0 0);
      [reflexivity | vm_compute; reflexivity | vm_compute; reflexivity].
Defined.

(** ** [normalize] in every arithmetic *)

(** X6: in every arithmetic, binary64 included, and for every number
    [fuel] of rounds allowed to each loop: [normalize] returns [r] exactly
    when there is a run of the kind [normalize_run] describes, and then it
    writes nothing; a run that does not return is a loop cut after [fuel]
    rounds.  An [x] that is neither above [2*PI] nor below [-2*PI] is
    returned as it is, and so is every result that is not above [2*PI] when
    it is normalized again. *)
Theorem normalize_range (D : Type) (A : Double D) (x : D) (fuel : nat) :
  (forall (r : D) (out : string),
      normalize fuel x = Ok r out
      <-> out = ""%string /\ exists j1 j2 : nat, normalize_run x fuel j1 j2 r)
  /\ (forall ft : fault, normalize fuel x = Fault ft -> ft = OutOfFuel)
  /\ (ltb (mul (of_int 2) PI) x = false -> ltb x (mul (of_int (-2)) PI) = false ->
      normalize fuel x = Ok x "")
  /\ (forall (r : D) (out : string),
         normalize fuel x = Ok r out ->
         ltb (mul (of_int 2) PI) r = false -> normalize fuel r = Ok r "").
Proof.
  assert (Hdown : forall s : D, ret (sub s (mul (of_int 2) PI)) = ret (turn_down s))
    by reflexivity.
  assert (Hup : forall s : D, ret (add s (mul (of_int 2) PI)) = ret (turn_up s))
    by reflexivity.
  assert (Hiff : forall (y r : D) (out : string),
             normalize fuel y = Ok r out
             <-> out = ""%string /\ exists j1 j2 : nat, normalize_run y fuel j1 j2 r).
  { intros y r out. unfold normalize, normalize_run. split.
    - intros Hrun.
      destruct (while fuel _ _ y) as [r1 o1|ft] eqn:H1; [|discriminate].
      destruct (while_pure_returns _ _ _ Hdown fuel _ _ _ H1)
        as (-> & j1 & Hj1 & -> & Hb1 & He1).
      rewrite (bind_Ok_quiet _ _ _ eq_refl) in Hrun.
      destruct (while_pure_returns _ _ _ Hup fuel _ _ _ Hrun)
        as (-> & j2 & Hj2 & -> & Hb2 & He2).
      split; [reflexivity|]. exists j1, j2. repeat split; assumption.
    - intros (-> & j1 & j2 & (Hj1 & Hj2) & Hb1 & He1 & Hb2 & He2 & ->).
      rewrite (bind_Ok_quiet _ _ _ (while_pure_exits _ _ _ Hdown j1 fuel y Hj1 Hb1 He1)).
      apply (while_pure_exits _ _ _ Hup); assumption. }
  assert (Hid : forall y : D,
             ltb (mul (of_int 2) PI) y = false -> ltb y (mul (of_int (-2)) PI) = false ->
             normalize fuel y = Ok y "").
  { intros y H1 H2. apply Hiff. split; [reflexivity|].
    exists 0%nat, 0%nat. unfold normalize_run. cbn [Nat.iter].
    repeat split; try lia; try assumption; intros i Hi; lia. }
  split; [apply Hiff|]. split; [|split; [apply Hid|]].
  - intros ft Hrun. unfold normalize in Hrun.
    destruct (while fuel _ _ x) as [r1 o1|ft1] eqn:H1.
    + destruct (while_pure_returns _ _ _ Hdown fuel _ _ _ H1) as (-> & _).
      rewrite (bind_Ok_quiet _ _ _ eq_refl) in Hrun.
      apply (while_pure_never_faults _ _ _ Hup fuel _ _ Hrun).
    + cbn in Hrun. injection Hrun as <-.
      apply (while_pure_never_faults _ _ _ Hdown fuel _ _ H1).
  - intros r out Hrun Hhi. apply Hid; [exact Hhi|].
    apply Hiff in Hrun as (_ & j1 & j2 & _ & _ & _ & _ & He2 & _). exact He2.
Qed.

(** ** The series loops in binary64 *)

Section SeriesLoops.
Variable q : Z -> float.
Variable eps t0 u0 : float.

Lemma series_rounds (n : nat) :
  Z.of_nat n + 1 <= INT_MAX ->
  Nat.iter n (series_round q) (t0, u0, 1)
  = (series_term q t0 n, series_sum q t0 u0 n, Z.of_nat n + 1).
Proof.
  induction n as [|n IH]; intros Hn; [reflexivity|].
  rewrite Nat.iter_succ, IH by lia. cbn [series_round series_term series_sum].
  replace (Z.of_nat n + 1) with (Z.of_nat (Datatypes.S n)) by lia.
  rewrite int_small by (unfold INT_MIN, INT_MAX in *; lia). reflexivity.
Qed.

Variable body : float * float * Z -> run (float * float * Z).
Hypothesis Hbody : forall s, body s = ret (series_round q s).

(** The loop entered after [lo] rounds. *)
Lemma series_loop_F64 (lo fuel : nat) (S : float) (out : string) :
  Z.of_nat lo + Z.of_nat fuel + 1 <= INT_MAX ->
  bind (while fuel (series_cond eps) body (Nat.iter lo (series_round q) (t0, u0, 1)))
    (fun '(_, sum, _) => ret sum) = Ok S out
  <-> out = ""%string /\ exists N : nat, series_run q eps t0 u0 lo fuel N S.
Proof.
  intros Hfuel.
  assert (Hs : forall i, (i <= fuel)%nat ->
             Nat.iter i (series_round q) (Nat.iter lo (series_round q) (t0, u0, 1))
             = (series_term q t0 (lo + i), series_sum q t0 u0 (lo + i),
                Z.of_nat (lo + i) + 1)).
  { intros i Hi. rewrite <- Nat.iter_add, Nat.add_comm. apply series_rounds. lia. }
  split.
  - intros Hrun.
    destruct (while fuel _ _ _) as [[[t u] n] o|ft] eqn:Hw; [|discriminate].
    destruct (while_pure_returns _ _ _ Hbody fuel _ _ _ Hw)
      as (-> & N & HN & Hst & Hbefore & Hexit).
    cbn in Hrun. injection Hrun as <- <-. split; [reflexivity|].
    rewrite Hs in Hst by exact HN. injection Hst as -> -> ->.
    exists (lo + N)%nat. unfold series_run. repeat split; try lia.
    + intros i Hi. specialize (Hbefore (i - lo)%nat ltac:(lia)).
      rewrite Hs in Hbefore by lia.
      replace (lo + (i - lo))%nat with i in Hbefore by lia. exact Hbefore.
    + exact Hexit.
  - intros (-> & N & (HN & Hbefore & Hexit & ->)).
    rewrite (while_pure_exits _ _ _ Hbody (N - lo)).
    + rewrite Hs by lia. replace (lo + (N - lo))%nat with N by lia. reflexivity.
    + lia.
    + intros i Hi. rewrite Hs by lia. apply Hbefore. lia.
    + rewrite Hs by lia. replace (lo + (N - lo))%nat with N by lia. exact Hexit.
Qed.

Lemma series_loop_faults (fuel : nat) (s : float * float * Z) (ft : fault) :
  bind (while fuel (series_cond eps) body s) (fun '(_, sum, _) => ret sum) = Fault ft ->
  ft = OutOfFuel.
Proof.
  intros Hrun. destruct (while fuel _ _ s) as [[[t u] n] o|ft1] eqn:Hw.
  - cbn in Hrun. discriminate.
  - cbn in Hrun. injection Hrun as <-.
    apply (while_pure_never_faults _ _ _ Hbody fuel _ _ Hw).
Qed.
End SeriesLoops.

(** X1: in binary64 and for every number [fuel] of rounds, [exp_] returns
    [S] exactly when there is a first term after the leading 1 whose
    magnitude is not above [1e-12], of index [N] with [1 <= N <= fuel + 1],
    and [S] is the sum [1 + t_1 + ... + t_N] taken from the left, where
    [t_n = t_(n-1) * (x / n)], every operation being the rounded one; it
    writes nothing, and a run that does not return is the loop cut after
    [fuel] rounds. *)
Theorem exp_sums_series (x : float) (fuel : nat) :
  Z.of_nat fuel + 2 <= INT_MAX ->
  (forall (S : float) (out : string),
      exp_ fuel x = Ok S out
      <-> out = ""%string
          /\ exists N : nat,
              series_run (exp_ratio x) (lit 1 12) (of_int 1) (of_int 1) 1 fuel N S)
  /\ (forall ft : fault, exp_ fuel x = Fault ft -> ft = OutOfFuel).
Proof.
  intros Hfuel.
  assert (Hbody : forall s, exp_body x s = ret (series_round (exp_ratio x) s)).
  { intros [[t u] n]. reflexivity. }
  unfold exp_, do_while. rewrite Hbody, bind_ret_l. split.
  - intros S out.
    apply (series_loop_F64 (exp_ratio x) (lit 1 12) (of_int 1) (of_int 1) _ Hbody 1 fuel).
    lia.
  - intros ft. apply (series_loop_faults _ _ _ Hbody).
Qed.

Lemma series_run_check (q : Z -> float) (eps t0 u0 : float) (lo fuel N : nat) (S : float) :
  (lo <= N <= lo + fuel)%nat ->
  forallb (fun i => ltb eps (abso (series_term q t0 i))) (seq lo (N - lo)) = true ->
  ltb eps (abso (series_term q t0 N)) = false ->
  S = series_sum q t0 u0 N ->
  series_run q eps t0 u0 lo fuel N S.
Proof.
  intros HN Hall Hexit HS. unfold series_run. repeat split; try lia; try assumption.
  intros i Hi. rewrite forallb_forall in Hall. apply Hall. apply in_seq. lia.
Qed.

Lemma exp_witness :
  exp_ 100 (-0x1.4p+4)%float = Ok 0x1.a676820f8748fp-28%float "".
Proof.
  apply (proj1 (exp_sums_series (-0x1.4p+4)%float 100 ltac:(unfold INT_MAX; lia))).
  split; [reflexivity|]. exists 76%nat.
  apply series_run_check; [lia | vm_compute; reflexivity ..].
Defined.

Lemma normalize_faults (D : Type) (A : Double D) (x : D) (fuel : nat) (ft : fault) :
  normalize fuel x = Fault ft -> ft = OutOfFuel.
Proof.
  intros Hrun. unfold normalize in Hrun.
  destruct (while fuel _ _ x) as [r1 o1|ft1] eqn:H1.
  - destruct (while_pure_returns _ _ turn_down (fun s => eq_refl) fuel _ _ _ H1) as (-> & _).
    rewrite (bind_Ok_quiet _ _ _ eq_refl) in Hrun.
    apply (while_pure_never_faults _ _ turn_up (fun s => eq_refl) fuel _ _ Hrun).
  - cbn in Hrun. injection Hrun as <-.
    apply (while_pure_never_faults _ _ turn_down (fun s => eq_refl) fuel _ _ H1).
Qed.

Lemma normalize_quiet (D : Type) (A : Double D) (x r : D) (fuel : nat) (out : string) :
  normalize fuel x = Ok r out -> out = ""%string.
Proof.
  intros Hrun. unfold normalize in Hrun.
  destruct (while fuel _ _ x) as [r1 o1|ft1] eqn:H1; [|discriminate].
  destruct (while_pure_returns _ _ turn_down (fun s => eq_refl) fuel _ _ _ H1) as (-> & _).
  rewrite (bind_Ok_quiet _ _ _ eq_refl) in Hrun.
  apply (while_pure_returns _ _ turn_up (fun s => eq_refl) fuel _ _ _ Hrun).
Qed.

Lemma sin_body_F64 (x : float) (s : float * float * Z) :
  sin_body x s = ret (series_round (sin_ratio x) s).
Proof. destruct s as [[t u] n]. reflexivity. Qed.

Lemma cos_body_F64 (x : float) (s : float * float * Z) :
  cos_body x s = ret (series_round (cos_ratio x) s).
Proof. destruct s as [[t u] n]. reflexivity. Qed.

(** X8: in binary64 and for every number [fuel] of rounds, when
    [normalize] returns the angle [x'], [sin_] returns [S] exactly when
    there is a first term whose magnitude is not above [1e-10], of index
    [N <= fuel], and [S] is the sum [t_0 + ... + t_N] taken from the left,
    where [t_0 = x'] and [t_n = t_(n-1) * (-1 * x' * x' / ((2n)(2n+1)))],
    the denominator being computed on [int] and every other operation
    rounded; it writes nothing, and a run that does not return is the loop
    cut after [fuel] rounds. *)
Theorem sin_sums_series (x x' : float) (fuel : nat) :
  Z.of_nat fuel + 1 <= INT_MAX ->
  normalize fuel x = Ok x' "" ->
  (forall (S : float) (out : string),
      sin_ fuel x = Ok S out
      <-> out = ""%string
          /\ exists N : nat, series_run (sin_ratio x') (lit 1 10) x' x' 0 fuel N S)
  /\ (forall ft : fault, sin_ fuel x = Fault ft -> ft = OutOfFuel).
Proof.
  intros Hfuel Hnorm. unfold sin_. rewrite (bind_Ok_quiet _ _ _ Hnorm). split.
  - intros S out.
    apply (series_loop_F64 (sin_ratio x') (lit 1 10) x' x' _ (sin_body_F64 x') 0 fuel).
    lia.
  - intros ft. apply (series_loop_faults _ _ _ (sin_body_F64 x')).
Qed.

Lemma sin_series_witness :
  sin_ 30 0x1.cp+2%float = Ok 0x1.50608c27fa5d8p-1%float "".
Proof.
  apply (proj1 (sin_sums_series 0x1.cp+2%float 0x1.6f0255df745e0p-1%float 30
                  ltac:(unfold INT_MAX; lia) ltac:(vm_compute; reflexivity))).
  split; [reflexivity|]. exists 6%nat.
  apply series_run_check; [lia | vm_compute; reflexivity ..].
Defined.

(** X9: in binary64 and for every number [fuel] of rounds, when
    [normalize] returns the angle [x'], [cos_] returns [S] exactly when
    there is a first term whose magnitude is not above [1e-10], of index
    [N <= fuel], and [S] is the sum [t_0 + ... + t_N] taken from the left,
    where [t_0 = 1] and [t_n = t_(n-1) * (-1 * x' * x' / ((2n-1)(2n)))],
    the denominator being computed on [int] and every other operation
    rounded; it writes nothing, and a run that does not return is the loop
    cut after [fuel] rounds. *)
Theorem cos_sums_series (x x' : float) (fuel : nat) :
  Z.of_nat fuel + 1 <= INT_MAX ->
  normalize fuel x = Ok x' "" ->
  (forall (S : float) (out : string),
      cos_ fuel x = Ok S out
      <-> out = ""%string
          /\ exists N : nat,
              series_run (cos_ratio x') (lit 1 10) (of_int 1) (of_int 1) 0 fuel N S)
  /\ (forall ft : fault, cos_ fuel x = Fault ft -> ft = OutOfFuel).
Proof.
  intros Hfuel Hnorm. unfold cos_. rewrite (bind_Ok_quiet _ _ _ Hnorm). split.
  - intros S out.
    apply (series_loop_F64 (cos_ratio x') (lit 1 10) (of_int 1) (of_int 1) _
             (cos_body_F64 x') 0 fuel).
    lia.
  - intros ft. apply (series_loop_faults _ _ _ (cos_body_F64 x')).
Qed.

Lemma cos_series_witness :
  cos_ 30 0x1.cp+2%float = Ok 0x1.81ff79ec8eca4p-1%float "".
Proof.
  apply (proj1 (cos_sums_series 0x1.cp+2%float 0x1.6f0255df745e0p-1%float 30
                  ltac:(unfold INT_MAX; lia) ltac:(vm_compute; reflexivity))).
  split; [reflexivity|]. exists 6%nat.
  apply series_run_check; [lia | vm_compute; reflexivity ..].
Defined.

(** ** [tan_] and [mySqrt] in binary64 *)

Lemma zero_is_small (c : float) :
  eqb c (of_int 0) = true -> ltb (abso c) (lit 1 12) = true.
Proof.
  intros Hc. cbn [eqb F64] in Hc. rewrite eqb_spec in Hc.
  assert (Hz : exists s, Prim2SF c = S754_zero s).
  { change (Prim2SF (of_int 0)) with (S754_zero false) in Hc.
    destruct (Prim2SF c) as [s | s | | s m ex];
      [exists s; reflexivity | exfalso ..].
    - destruct s; discriminate Hc.
    - discriminate Hc.
    - destruct s; discriminate Hc. }
  destruct Hz as [s Hs].
  rewrite <- (SF2Prim_Prim2SF c), Hs. destruct s; vm_compute; reflexivity.
Qed.

Lemma sin_faults (x : float) (fuel : nat) (ft : fault) :
  sin_ fuel x = Fault ft -> ft = OutOfFuel.
Proof.
  unfold sin_. intros Hrun.
  destruct (normalize fuel x) as [x' o|ft1] eqn:Hn.
  - rewrite (normalize_quiet _ _ _ _ _ _ Hn) in Hrun.
    rewrite (bind_Ok_quiet _ _ _ eq_refl) in Hrun.
    apply (series_loop_faults _ _ _ (sin_body_F64 x') _ _ _ Hrun).
  - cbn in Hrun. injection Hrun as <-. apply (normalize_faults _ _ _ _ _ Hn).
Qed.

Lemma cos_faults (x : float) (fuel : nat) (ft : fault) :
  cos_ fuel x = Fault ft -> ft = OutOfFuel.
Proof.
  unfold cos_. intros Hrun.
  destruct (normalize fuel x) as [x' o|ft1] eqn:Hn.
  - rewrite (normalize_quiet _ _ _ _ _ _ Hn) in Hrun.
    rewrite (bind_Ok_quiet _ _ _ eq_refl) in Hrun.
    apply (series_loop_faults _ _ _ (cos_body_F64 x') _ _ _ Hrun).
  - cbn in Hrun. injection Hrun as <-. apply (normalize_faults _ _ _ _ _ Hn).
Qed.

(** X10: in binary64 [tan_] never divides by zero.  When [normalize]
    returns [x'] and [cos_] returns [c] on it: if the magnitude of [c] is
    below [1e-12], [tan_] writes its message and returns 0; otherwise [c] is
    not zero and [tan_] returns [sin_(x') / c].  A run of [tan_] that does
    not return is a loop cut after [fuel] rounds. *)
Theorem tan_never_divides_by_zero (x x' c : float) (fuel : nat) :
  normalize fuel x = Ok x' "" -> cos_ fuel x' = Ok c "" ->
  (ltb (abso c) (lit 1 12) = true -> tan_ fuel x = Ok (of_int 0) tan_message)
  /\ (ltb (abso c) (lit 1 12) = false ->
      eqb c (of_int 0) = false
      /\ forall s : float, sin_ fuel x' = Ok s "" -> tan_ fuel x = Ok (s / c)%float "")
  /\ (forall (y : float) (ft : fault), tan_ fuel y = Fault ft -> ft = OutOfFuel).
Proof.
  intros Hnorm Hcos. split; [|split].
  - intros Hsmall. unfold tan_.
    rewrite (bind_Ok_quiet _ _ _ Hnorm), (bind_Ok_quiet _ _ _ Hcos), Hsmall. reflexivity.
  - intros Hbig. split.
    + destruct (eqb c (of_int 0)) eqn:Hz; [|reflexivity].
      rewrite (zero_is_small c Hz) in Hbig. discriminate Hbig.
    + intros s Hsin. unfold tan_.
      rewrite (bind_Ok_quiet _ _ _ Hnorm), (bind_Ok_quiet _ _ _ Hcos), Hbig.
      rewrite (bind_Ok_quiet _ _ _ Hsin). reflexivity.
  - intros y ft Hrun. unfold tan_ in Hrun.
    destruct (normalize fuel y) as [y' o|ft1] eqn:Hn.
    + rewrite (normalize_quiet _ _ _ _ _ _ Hn) in Hrun.
      rewrite (bind_Ok_quiet _ _ _ eq_refl) in Hrun.
      destruct (cos_ fuel y') as [c' o'|ft2] eqn:Hc.
      * cbn [bind] in Hrun. destruct (ltb (abso c') (lit 1 12)); [discriminate|].
        destruct (sin_ fuel y') as [s' o''|ft3] eqn:Hs; [discriminate|].
        cbn in Hrun. injection Hrun as <-. apply (sin_faults _ _ _ Hs).
      * cbn in Hrun. injection Hrun as <-. apply (cos_faults _ _ _ Hc).
    + cbn in Hrun. injection Hrun as <-. apply (normalize_faults _ _ _ _ _ Hn).
Qed.

Lemma tan_witness :
  eqb 0x1.81ff79ec8eca4p-1%float (of_int 0) = false
  /\ tan_ 30 0x1.cp+2%float = Ok 0x1.be2e6e16a5373p-1%float "".
Proof.
  destruct (tan_never_divides_by_zero 0x1.cp+2%float 0x1.6f0255df745e0p-1%float
              0x1.81ff79ec8eca4p-1%float 30)
    as (_ & Hbig & _); [vm_compute; reflexivity | vm_compute; reflexivity |].
  destruct Hbig as [Hnz Hrun]; [vm_compute; reflexivity|].
  split; [exact Hnz|]. apply (Hrun 0x1.50608c27fa5d8p-1%float). vm_compute. reflexivity.
Defined.

(** X23: in binary64 [mySqrt] is exact on the squares of the whole numbers
    from 1 to 1000: [mySqrt(n * n)] is [n]. *)
Theorem mySqrt_perfect_squares (n : Z) :
  1 <= n <= 1000 -> mySqrt (D:=float) (of_int (n * n)) = Ok (of_int n) "".
Proof.
  intros Hn.
  assert (Hall : forallb
             (fun k => match mySqrt (D:=float) (of_int (Z.of_nat k * Z.of_nat k)) with
                       | Ok g out => (PrimFloat.Leibniz.eqb g (of_int (Z.of_nat k))
                                    && String.eqb out "")%bool
                       | Fault _ => false
                       end) (seq 1 1000) = true) by (vm_compute; reflexivity).
  rewrite forallb_forall in Hall.
  specialize (Hall (Z.to_nat n) ltac:(apply in_seq; lia)).
  rewrite Z2Nat.id in Hall by lia.
  destruct (mySqrt (of_int (n * n))) as [g out|ft]; [|discriminate].
  apply andb_true_iff in Hall as [Hg Ho].
  apply FloatAxioms.Leibniz.eqb_spec in Hg. apply String.eqb_eq in Ho. subst. reflexivity.
Qed.

Lemma mySqrt_squares_witness :
  mySqrt (D:=float) (of_int 63504) = Ok (of_int 252) "".
Proof. exact (mySqrt_perfect_squares 252 ltac:(lia)). Defined.
